(** * The CSS selector builder of [src/06-objects-tasks.js]

    A shallow embedding of the object [cssSelectorBuilder] and of its
    methods, with the JavaScript heap made explicit: the builder and every
    object derived from it are mutable objects reached through references,
    [stringify] and [combine] assign to [this.res], and [createNewObj]
    allocates a new object and a new array.  The methods are written in a
    small state-and-exception monad over that heap. *)

From stdpp Require Import base list strings.
From Stdlib Require Import Lia.

Local Open Scope string_scope.

(** ** Heap *)

(** References are indices into the heap's tables; allocation appends. *)
Abbreviation loc := nat (only parsing).

(** The data properties of a builder object.  The method properties are the
    same closures in every object (the spread in [createNewObj] copies them),
    so a method call on a reference is a call of the function below of the
    same name.  [bits] holds a reference: JavaScript arrays are objects. *)
Record object := Object { res : string; bits : loc }.

Record heap := Heap { objs : list object; arrs : list (list bool) }.

(** The two [Error]s the source constructs, told apart by their message;
    [TypeError] is what JavaScript raises when a property of [undefined] is
    read, which here is a reference outside the heap. *)
Inductive error := DuplicatePartError | OrderingError | TypeError.

Definition message (e : error) : string :=
  match e with
  | DuplicatePartError =>
      "Element, id and pseudo-element should not occur more then one time inside the selector"
  | OrderingError =>
      "Selector parts should be arranged in the following order: element, id, class, attribute, pseudo-class, pseudo-element"
  | TypeError => "Cannot read properties of undefined"
  end.

Global Instance error_eq_dec : EqDecision error.
Proof. solve_decision. Defined.

Global Instance object_eq_dec : EqDecision object.
Proof. solve_decision. Defined.

(** ** The monad: a heap threaded through, and a value or a thrown error *)

Inductive outcome (A : Type) := Ok (a : A) | Throw (e : error).
Arguments Ok {A} a.
Arguments Throw {A} e.

Definition M (A : Type) : Type := heap -> outcome A * heap.

Definition ret {A} (a : A) : M A := fun h => (Ok a, h).

Definition throw {A} (e : error) : M A := fun h => (Throw e, h).

Definition bind {A B} (m : M A) (k : A -> M B) : M B :=
  fun h => match m h with
           | (Ok a, h') => k a h'
           | (Throw e, h') => (Throw e, h')
           end.

Notation "'do' x <- m ; k" := (bind m (fun x => k))
  (at level 10, x name, m at level 100, k at level 200).
Notation "'run' m ; k" := (bind m (fun _ => k))
  (at level 10, m at level 100, k at level 200).

(** ** Primitive heap operations *)

(** [l.res] *)
Definition get_res (l : loc) : M string := fun h =>
  match objs h !! l with
  | Some o => (Ok (res o), h)
  | None => (Throw TypeError, h)
  end.

(** [l.res = s] *)
Definition set_res (l : loc) (s : string) : M unit := fun h =>
  match objs h !! l with
  | Some o => (Ok tt, Heap (<[l := Object s (bits o)]> (objs h)) (arrs h))
  | None => (Throw TypeError, h)
  end.

(** [l.bits] *)
Definition get_bits (l : loc) : M loc := fun h =>
  match objs h !! l with
  | Some o => (Ok (bits o), h)
  | None => (Throw TypeError, h)
  end.

(** [l.bits = a] *)
Definition set_bits (l : loc) (a : loc) : M unit := fun h =>
  match objs h !! l with
  | Some o => (Ok tt, Heap (<[l := Object (res o) a]> (objs h)) (arrs h))
  | None => (Throw TypeError, h)
  end.

(** [{ ...l }]: a new object with the same properties (a shallow copy: the
    [bits] property of the copy refers to the same array). *)
Definition spread (l : loc) : M loc := fun h =>
  match objs h !! l with
  | Some o => (Ok (length (objs h)), Heap (objs h ++ [o]) (arrs h))
  | None => (Throw TypeError, h)
  end.

(** Truthiness of [bs[i]]: an index outside the array reads [undefined],
    which is falsy. *)
Definition flag (bs : list bool) (i : nat) : bool := default false (bs !! i).

(** [a[i]] used as a condition *)
Definition arr_get (a : loc) (i : nat) : M bool := fun h =>
  match arrs h !! a with
  | Some bs => (Ok (flag bs i), h)
  | None => (Throw TypeError, h)
  end.

(** [a.length] *)
Definition arr_length (a : loc) : M nat := fun h =>
  match arrs h !! a with
  | Some bs => (Ok (length bs), h)
  | None => (Throw TypeError, h)
  end.

(** [a.slice()]: a new array with the same elements *)
Definition arr_slice (a : loc) : M loc := fun h =>
  match arrs h !! a with
  | Some bs => (Ok (length (arrs h)), Heap (objs h) (arrs h ++ [bs]))
  | None => (Throw TypeError, h)
  end.

(** Assignment to an array element.  Inside the array it replaces the
    element; beyond its end JavaScript extends the array, the skipped
    positions being holes, which read as [undefined] and so as [false]. *)
Definition store (bs : list bool) (i : nat) (v : bool) : list bool :=
  if decide (i < length bs) then <[i := v]> bs
  else bs ++ replicate (i - length bs) false ++ [v].

(** [a[i] = v] *)
Definition arr_set (a : loc) (i : nat) (v : bool) : M unit := fun h =>
  match arrs h !! a with
  | Some bs => (Ok tt, Heap (objs h) (<[a := store bs i v]> (arrs h)))
  | None => (Throw TypeError, h)
  end.

(** ** The methods of [cssSelectorBuilder] *)

(** [checkCallOnce(bit)] *)
Definition checkCallOnce (bit : nat) (this : loc) : M unit :=
  do a <- get_bits this ;
  do b <- arr_get a bit ;
  if b then throw DuplicatePartError else ret tt.

(** The loop of [checkOrder], from index [i]; [n] bounds the number of
    iterations still to run, and the loop leaves when [i] reaches
    [this.bits.length]. *)
Fixpoint checkOrder_loop (n : nat) (a : loc) (i : nat) : M unit :=
  match n with
  | O => ret tt
  | S n' =>
      do len <- arr_length a ;
      if decide (i < len) then
        do b <- arr_get a i ;
        if b then throw OrderingError
        else checkOrder_loop n' a (i + 1)
      else ret tt
  end.

(** [checkOrder(bit)]: the array's length bounds the number of iterations. *)
Definition checkOrder (bit : nat) (this : loc) : M unit :=
  do a <- get_bits this ;
  do len <- arr_length a ;
  checkOrder_loop len a (bit + 1).

(** [createNewObj(obj, bit)] *)
Definition createNewObj (obj : loc) (bit : nat) : M loc :=
  do newObj <- spread obj ;
  do a <- get_bits obj ;
  do a' <- arr_slice a ;
  run set_bits newObj a' ;
  do b <- get_bits newObj ;
  run arr_set b bit true ;
  ret newObj.

(** [obj.res += s] *)
Definition append_res (obj : loc) (s : string) : M unit :=
  do r <- get_res obj ;
  set_res obj (r +:+ s).

(** The argument [value] is a string, and a template literal leaves a string
    as it is. *)
Definition element (value : string) (this : loc) : M loc :=
  run checkCallOnce 0 this ;
  run checkOrder 0 this ;
  do obj <- createNewObj this 0 ;
  run append_res obj value ;
  ret obj.

Definition id (value : string) (this : loc) : M loc :=
  run checkCallOnce 1 this ;
  run checkOrder 1 this ;
  do obj <- createNewObj this 1 ;
  run append_res obj ("#" +:+ value) ;
  ret obj.

Definition class (value : string) (this : loc) : M loc :=
  run checkOrder 2 this ;
  do obj <- createNewObj this 2 ;
  run append_res obj ("." +:+ value) ;
  ret obj.

Definition attr (value : string) (this : loc) : M loc :=
  run checkOrder 3 this ;
  do obj <- createNewObj this 3 ;
  run append_res obj ("[" +:+ value +:+ "]") ;
  ret obj.

Definition pseudoClass (value : string) (this : loc) : M loc :=
  run checkOrder 4 this ;
  do obj <- createNewObj this 4 ;
  run append_res obj (":" +:+ value) ;
  ret obj.

Definition pseudoElement (value : string) (this : loc) : M loc :=
  run checkCallOnce 5 this ;
  run checkOrder 5 this ;
  do obj <- createNewObj this 5 ;
  run append_res obj ("::" +:+ value) ;
  ret obj.

(** [stringify()] *)
Definition stringify (this : loc) : M string :=
  do str <- get_res this ;
  run set_res this "" ;
  ret str.

(** [combine(selector1, combinator, selector2)] *)
Definition combine (selector1 : loc) (combinator : string) (selector2 : loc)
    (this : loc) : M loc :=
  do temp1 <- stringify selector1 ;
  do temp2 <- stringify selector2 ;
  run set_res this (temp1 +:+ " " +:+ combinator +:+ " " +:+ temp2) ;
  ret this.

(** The heap once the module is loaded: the builder object with
    [res: ''] and [bits: new Array(6).fill(false)]. *)
Definition cssSelectorBuilder : loc := 0.

Definition init_heap : heap :=
  Heap [Object "" 0] [replicate 6 false].

(** ** Categories

    The six part-appending methods differ in the index of their flag, in
    whether they call [checkCallOnce], and in the text they append. *)
Inductive category :=
  Element | Id | Class | Attribute | PseudoClass | PseudoElement.

Global Instance category_eq_dec : EqDecision category.
Proof. solve_decision. Defined.

(** The method of each category ([attr] is the source's name for the
    attribute method). *)
Definition call (c : category) : string -> loc -> M loc :=
  match c with
  | Element => element
  | Id => id
  | Class => class
  | Attribute => attr
  | PseudoClass => pseudoClass
  | PseudoElement => pseudoElement
  end.

(** The index each method passes to [checkOrder] and [createNewObj]. *)
Definition rank (c : category) : nat :=
  match c with
  | Element => 0
  | Id => 1
  | Class => 2
  | Attribute => 3
  | PseudoClass => 4
  | PseudoElement => 5
  end.

(** The methods that call [checkCallOnce]. *)
Definition single (c : category) : bool :=
  match c with
  | Element | Id | PseudoElement => true
  | Class | Attribute | PseudoClass => false
  end.

(** The text each method appends to [res]. *)
Definition fragment (c : category) (value : string) : string :=
  match c with
  | Element => value
  | Id => "#" +:+ value
  | Class => "." +:+ value
  | Attribute => "[" +:+ value +:+ "]"
  | PseudoClass => ":" +:+ value
  | PseudoElement => "::" +:+ value
  end.

(** ** Observations on a heap *)

(** The accumulated text of the object at [l]. *)
Definition text_of (h : heap) (l : loc) : option string :=
  res <$> objs h !! l.

(** The presence flags of the object at [l]: the array its [bits] refers to. *)
Definition flags_of (h : heap) (l : loc) : option (list bool) :=
  match objs h !! l with
  | Some o => arrs h !! bits o
  | None => None
  end.

(** Some flag at an index above [bit] is set. *)
Definition higher_set (bs : list bool) (bit : nat) : bool :=
  existsb (fun b : bool => b) (drop (bit + 1) bs).

(** The flags of the fresh builder. *)
Definition no_flags : list bool := replicate 6 false.

(** The heap a successful part-appending call leaves: one more object, whose
    text is the receiver's followed by the fragment, and one more array, the
    receiver's flags with the category's flag set. *)
Definition extend (h : heap) (o : object) (c : category) (value : string)
    (bs : list bool) : heap :=
  Heap (objs h ++ [Object (res o +:+ fragment c value) (length (arrs h))])
       (arrs h ++ [store bs (rank c) true]).

(** What a part-appending call does, by cases on the receiver. *)
Definition call_outcome (c : category) (value : string) (this : loc)
    (h : heap) : outcome loc * heap :=
  match objs h !! this with
  | None => (Throw TypeError, h)
  | Some o =>
      match arrs h !! bits o with
      | None => (Throw TypeError, h)
      | Some bs =>
          if single c && flag bs (rank c) then (Throw DuplicatePartError, h)
          else if higher_set bs (rank c) then (Throw OrderingError, h)
          else (Ok (length (objs h)), extend h o c value bs)
      end
  end.

(** The heap after the assignment [l.res = s]. *)
Definition with_text (l : loc) (s : string) (h : heap) : heap :=
  match objs h !! l with
  | Some o => Heap (<[l := Object s (bits o)]> (objs h)) (arrs h)
  | None => h
  end.

(** ** Chains of part-appending calls *)

(** [this.m1(v1).m2(v2)...]: each call is made on the object the previous
    one returned. *)
Fixpoint chain (calls : list (category * string)) (this : loc) : M loc :=
  match calls with
  | [] => ret this
  | (c, value) :: rest => do obj <- call c value this ; chain rest obj
  end.

(** The fragments of the calls, concatenated in the order of the calls. *)
Fixpoint fragments (calls : list (category * string)) : string :=
  match calls with
  | [] => ""
  | (c, value) :: rest => fragment c value +:+ fragments rest
  end.

(** The categories are applied in non-decreasing order. *)
Fixpoint nondecreasing (calls : list (category * string)) : bool :=
  match calls with
  | [] => true
  | (c, _) :: rest =>
      match rest with
      | [] => true
      | (c', _) :: _ => (rank c <=? rank c')%nat && nondecreasing rest
      end
  end.

(** How many calls of the chain are of category [c]. *)
Fixpoint uses (c : category) (calls : list (category * string)) : nat :=
  match calls with
  | [] => 0
  | (c', _) :: rest => (if decide (c' = c) then 1 else 0) + uses c rest
  end.

(** A valid chain: non-decreasing category order, and [element], [id] and
    [pseudoElement] each used at most once. *)
Definition valid_chain (calls : list (category * string)) : bool :=
  nondecreasing calls
  && (uses Element calls <=? 1)%nat
  && (uses Id calls <=? 1)%nat
  && (uses PseudoElement calls <=? 1)%nat.

(** The flags [bs] of a receiver let every call of [calls] through: none has
    a flag set above it, and none that is single-use has its own flag set. *)
Definition compatible (bs : list bool) (calls : list (category * string))
    : Prop :=
  forall c value, (c, value) ∈ calls ->
    higher_set bs (rank c) = false /\
    (single c = true -> flag bs (rank c) = false).

(** Running a computation: its outcome and the heap it leaves. *)
Definition result {A} (m : M A) (h : heap) : outcome A := fst (m h).
Definition after {A} (m : M A) (h : heap) : heap := snd (m h).

(** ** Programs using the builder

    A client holds references to builder objects and calls their methods; an
    exception can be caught, after which the client goes on with the heap as
    the failed call left it. *)
Inductive action :=
  | Call (c : category) (value : string) (this : loc)
  | Stringify (this : loc)
  | Combine (selector1 : loc) (combinator : string) (selector2 : loc)
      (this : loc).

Definition step (a : action) (h : heap) : heap :=
  match a with
  | Call c value this => after (call c value this) h
  | Stringify this => after (stringify this) h
  | Combine selector1 combinator selector2 this =>
      after (combine selector1 combinator selector2 this) h
  end.

(** A reference to an object of the heap. *)
Definition live (h : heap) (l : loc) : Prop := is_Some (objs h !! l).

Global Instance live_dec (h : heap) (l : loc) : Decision (live h l).
Proof. unfold live. apply _. Defined.

(** JavaScript has no dangling references: the references an action uses
    are live. *)
Definition on_live (h : heap) (a : action) : Prop :=
  match a with
  | Call _ _ this => live h this
  | Stringify this => live h this
  | Combine selector1 _ selector2 this =>
      live h selector1 /\ live h selector2 /\ live h this
  end.

(** The heaps a client can produce from the heap of the loaded module. *)
Inductive reachable : heap -> Prop :=
  | reachable_init : reachable init_heap
  | reachable_step (h : heap) (a : action) :
      reachable h -> on_live h a -> reachable (step a h).

(** ** Heaps of the examples *)

(** After [const a = cssSelectorBuilder.element('a')]: [a] is object 1. *)
Definition heap_a : heap :=
  after (element "a" cssSelectorBuilder) init_heap.

(** After [const ab = cssSelectorBuilder.element('a').id('b')]: [ab] is
    object 2. *)
Definition heap_ab : heap :=
  after (chain [(Element, "a"); (Id, "b")] cssSelectorBuilder) init_heap.

(** After [const x = cssSelectorBuilder.element('x')],
    [const y = cssSelectorBuilder.element('y')] and
    [const z = cssSelectorBuilder.element('z')]: objects 1, 2 and 3. *)
Definition heap_xyz : heap :=
  after (run element "x" cssSelectorBuilder ;
         run element "y" cssSelectorBuilder ;
         element "z" cssSelectorBuilder) init_heap.

(** After [const dm = cssSelectorBuilder.element('div').id('main')] and
    [const sp = cssSelectorBuilder.element('span')]: [dm] is object 2 and
    [sp] is object 3. *)
Definition heap_div_span : heap :=
  after (run chain [(Element, "div"); (Id, "main")] cssSelectorBuilder ;
         element "span" cssSelectorBuilder) init_heap.

(** ** Examples from the source's documentation *)

Example doc_example_1 :
  result (do l1 <- id "main" cssSelectorBuilder ;
          do l2 <- class "container" l1 ;
          do l3 <- class "editable" l2 ;
          stringify l3) init_heap
  = Ok "#main.container.editable".
Proof. reflexivity. Qed.

Example doc_example_2 :
  result (do l1 <- element "a" cssSelectorBuilder ;
          do l2 <- attr "href$=.png" l1 ;
          do l3 <- pseudoClass "focus" l2 ;
          stringify l3) init_heap
  = Ok "a[href$=.png]:focus".
Proof. reflexivity. Qed.

(** The nested [combine] of the documentation, its arguments evaluated
    from left to right as JavaScript does. *)
Example doc_example_3 :
  result (do a1 <- element "div" cssSelectorBuilder ;
          do a2 <- id "main" a1 ;
          do a3 <- class "container" a2 ;
          do a4 <- class "draggable" a3 ;
          do b1 <- element "table" cssSelectorBuilder ;
          do b2 <- id "data" b1 ;
          do c1 <- element "tr" cssSelectorBuilder ;
          do c2 <- pseudoClass "nth-of-type(even)" c1 ;
          do d1 <- element "td" cssSelectorBuilder ;
          do d2 <- pseudoClass "nth-of-type(even)" d1 ;
          do inner <- combine c2 " " d2 cssSelectorBuilder ;
          do middle <- combine b2 "~" inner cssSelectorBuilder ;
          do outer <- combine a4 "+" middle cssSelectorBuilder ;
          stringify outer) init_heap
  = Ok "div#main.container.draggable + table#data ~ tr:nth-of-type(even)   td:nth-of-type(even)".
Proof. reflexivity. Qed.

Example element_twice_throws :
  result (do a <- element "a" cssSelectorBuilder ; element "b" a) init_heap
  = Throw DuplicatePartError.
Proof. reflexivity. Qed.

Example id_after_class_throws :
  result (do c <- class "c" cssSelectorBuilder ; id "x" c) init_heap
  = Throw OrderingError.
Proof. reflexivity. Qed.

Example store_inside : store [false; false; false] 1 true = [false; true; false].
Proof. reflexivity. Qed.

Example store_beyond : store [false; false] 4 true
                       = [false; false; false; false; true].
Proof. reflexivity. Qed.

(** ** Strings *)

Lemma append_assoc (s1 s2 s3 : string) :
  (s1 +:+ s2) +:+ s3 = s1 +:+ (s2 +:+ s3).
Proof.
  induction s1 as [|a s1 IH]; [reflexivity|].
  change (String a ((s1 +:+ s2) +:+ s3) = String a (s1 +:+ (s2 +:+ s3))).
  now rewrite IH.
Qed.

Lemma append_empty_r (s : string) : s +:+ "" = s.
Proof.
  induction s as [|a s IH]; [reflexivity|].
  change (String a (s +:+ "") = String a s). now rewrite IH.
Qed.

(** ** Arrays *)

Lemma flag_store (bs : list bool) (i j : nat) :
  flag (store bs i true) j = if decide (j = i) then true else flag bs j.
Proof.
  unfold flag, store. destruct (decide (i < length bs)) as [Hi|Hi].
  - destruct (decide (j = i)) as [->|Hne].
    + now rewrite list_lookup_insert_eq.
    + now rewrite list_lookup_insert_ne.
  - destruct (decide (j = i)) as [->|Hne].
    + rewrite lookup_app_r by lia.
      rewrite lookup_app_r by (rewrite length_replicate; lia).
      rewrite length_replicate.
      now replace (i - length bs - (i - length bs)) with 0 by lia.
    + destruct (decide (j < length bs)) as [Hj|Hj].
      * now rewrite lookup_app_l.
      * rewrite lookup_app_r by lia.
        rewrite (lookup_ge_None_2 bs j) by lia. simpl.
        destruct (decide (j - length bs < i - length bs)) as [Hlt|Hge].
        -- rewrite lookup_app_l by (rewrite length_replicate; lia).
           now rewrite lookup_replicate_2.
        -- rewrite lookup_ge_None_2; [reflexivity|].
           rewrite length_app, length_replicate. simpl. lia.
Qed.

Lemma higher_set_true (bs : list bool) (bit : nat) :
  higher_set bs bit = true <-> exists i, bit < i /\ flag bs i = true.
Proof.
  unfold higher_set, flag. rewrite existsb_exists. split.
  - intros (b & Hin & ->). apply list_elem_of_In, list_elem_of_lookup in Hin.
    destruct Hin as (k & Hk). rewrite lookup_drop in Hk.
    exists (bit + 1 + k). split; [lia|]. now rewrite Hk.
  - intros (i & Hlt & Hi). exists true. split; [|reflexivity].
    apply list_elem_of_In, list_elem_of_lookup. exists (i - (bit + 1)).
    rewrite lookup_drop. replace (bit + 1 + (i - (bit + 1))) with i by lia.
    destruct (bs !! i) as [[]|]; simpl in Hi; congruence.
Qed.

Lemma higher_set_false (bs : list bool) (bit : nat) :
  higher_set bs bit = false <-> forall i, bit < i -> flag bs i = false.
Proof.
  split.
  - intros H i Hi. destruct (flag bs i) eqn:E; [|reflexivity].
    assert (higher_set bs bit = true) by (apply higher_set_true; eauto).
    congruence.
  - intros H. destruct (higher_set bs bit) eqn:E; [|reflexivity].
    apply higher_set_true in E as (i & Hi & Hf). rewrite H in Hf by lia.
    discriminate.
Qed.

(** ** Running the monad *)

Lemma bind_ok {A B} (m : M A) (k : A -> M B) (h h' : heap) (a : A) :
  m h = (Ok a, h') -> bind m k h = k a h'.
Proof. unfold bind. now intros ->. Qed.

Lemma bind_throw {A B} (m : M A) (k : A -> M B) (h h' : heap) (e : error) :
  m h = (Throw e, h') -> bind m k h = (Throw e, h').
Proof. unfold bind. now intros ->. Qed.

(** Run the first computation of a [bind] whose outcome [H] gives. *)
Tactic Notation "bind_step" uconstr(H) := rewrite (bind_ok _ _ _ _ _ H).

Lemma get_bits_run (h : heap) (l : loc) (o : object) :
  objs h !! l = Some o -> get_bits l h = (Ok (bits o), h).
Proof. unfold get_bits. now intros ->. Qed.

Lemma get_res_run (h : heap) (l : loc) (o : object) :
  objs h !! l = Some o -> get_res l h = (Ok (res o), h).
Proof. unfold get_res. now intros ->. Qed.

Lemma arr_get_run (h : heap) (a : loc) (bs : list bool) (i : nat) :
  arrs h !! a = Some bs -> arr_get a i h = (Ok (flag bs i), h).
Proof. unfold arr_get. now intros ->. Qed.

Lemma arr_length_run (h : heap) (a : loc) (bs : list bool) :
  arrs h !! a = Some bs -> arr_length a h = (Ok (length bs), h).
Proof. unfold arr_length. now intros ->. Qed.

(** ** The checks *)

Lemma checkCallOnce_run (h : heap) (this : loc) (o : object)
    (bs : list bool) (bit : nat) :
  objs h !! this = Some o -> arrs h !! bits o = Some bs ->
  checkCallOnce bit this h
  = (if flag bs bit then Throw DuplicatePartError else Ok tt, h).
Proof.
  intros Ho Hbs. unfold checkCallOnce.
  bind_step (get_bits_run _ _ _ Ho).
  bind_step (arr_get_run _ _ _ bit Hbs).
  now destruct (flag bs bit).
Qed.

Lemma existsb_drop_flag (bs : list bool) (i : nat) :
  i < length bs ->
  existsb (fun b : bool => b) (drop i bs)
  = flag bs i || existsb (fun b : bool => b) (drop (i + 1) bs).
Proof.
  intros Hi. destruct (lookup_lt_is_Some_2 bs i Hi) as [b Hb].
  rewrite (drop_S bs b i Hb). unfold flag. rewrite Hb. simpl.
  now replace (i + 1) with (S i) by lia.
Qed.

Lemma checkOrder_loop_run (h : heap) (a : loc) (bs : list bool) :
  arrs h !! a = Some bs ->
  forall n i, length bs <= n + i ->
  checkOrder_loop n a i h
  = (if existsb (fun b : bool => b) (drop i bs)
     then Throw OrderingError else Ok tt, h).
Proof.
  intros Hbs. induction n as [|n IH]; intros i Hn.
  - simpl. rewrite drop_ge by lia. reflexivity.
  - simpl. bind_step (arr_length_run _ _ _ Hbs).
    destruct (decide (i < length bs)) as [Hi|Hi].
    + bind_step (arr_get_run _ _ _ i Hbs).
      rewrite (existsb_drop_flag bs i Hi).
      destruct (flag bs i); [reflexivity|].
      simpl. apply IH. lia.
    + rewrite drop_ge by lia. reflexivity.
Qed.

Lemma checkOrder_run (h : heap) (this : loc) (o : object)
    (bs : list bool) (bit : nat) :
  objs h !! this = Some o -> arrs h !! bits o = Some bs ->
  checkOrder bit this h
  = (if higher_set bs bit then Throw OrderingError else Ok tt, h).
Proof.
  intros Ho Hbs. unfold checkOrder.
  bind_step (get_bits_run _ _ _ Ho).
  bind_step (arr_length_run _ _ _ Hbs).
  apply (checkOrder_loop_run h _ bs Hbs). lia.
Qed.

(** ** Allocation *)

Lemma createNewObj_run (h : heap) (obj : loc) (o : object)
    (bs : list bool) (bit : nat) :
  objs h !! obj = Some o -> arrs h !! bits o = Some bs ->
  createNewObj obj bit h
  = (Ok (length (objs h)),
     Heap (objs h ++ [Object (res o) (length (arrs h))])
          (arrs h ++ [store bs bit true])).
Proof.
  intros Ho Hbs. unfold createNewObj.
  assert (Hlt : obj < length (objs h)) by (eapply lookup_lt_Some; eauto).
  assert (Hlta : bits o < length (arrs h)) by (eapply lookup_lt_Some; eauto).
  unfold bind at 1. unfold spread. rewrite Ho.
  unfold bind at 1. unfold get_bits at 1. cbn [objs arrs].
  rewrite lookup_app_l, Ho by assumption.
  unfold bind at 1. unfold arr_slice. cbn [objs arrs]. rewrite Hbs.
  unfold bind at 1. unfold set_bits. cbn [objs arrs].
  rewrite list_lookup_middle by reflexivity.
  unfold bind at 1. unfold get_bits. cbn [objs arrs].
  rewrite insert_app_r_alt, Nat.sub_diag by lia. cbn [insert list_insert].
  rewrite list_lookup_middle by reflexivity. cbn [bits res].
  unfold bind at 1. unfold arr_set. cbn [objs arrs].
  rewrite list_lookup_middle by reflexivity.
  rewrite insert_app_r_alt, Nat.sub_diag by lia.
  reflexivity.
Qed.

Lemma append_res_last (os : list object) (ars : list (list bool))
    (r s : string) (a : loc) :
  append_res (length os) s (Heap (os ++ [Object r a]) ars)
  = (Ok tt, Heap (os ++ [Object (r +:+ s) a]) ars).
Proof.
  unfold append_res, bind, get_res, set_res. cbn [objs arrs].
  rewrite list_lookup_middle by reflexivity. cbn [objs arrs res bits].
  rewrite list_lookup_middle by reflexivity. cbn [res bits].
  rewrite insert_app_r_alt, Nat.sub_diag by lia. reflexivity.
Qed.

(** Every part-appending method is the case analysis [call_outcome]. *)
Lemma call_run (c : category) (value : string) (this : loc) (h : heap) :
  call c value this h = call_outcome c value this h.
Proof.
  unfold call_outcome.
  destruct (objs h !! this) as [o|] eqn:Ho.
  - destruct (arrs h !! bits o) as [bs|] eqn:Hbs.
    + pose proof (checkCallOnce_run h this o bs (rank c) Ho Hbs) as Honce.
      pose proof (checkOrder_run h this o bs (rank c) Ho Hbs) as Hord.
      pose proof (createNewObj_run h this o bs (rank c) Ho Hbs) as Hnew.
      destruct c; cbn [call single rank andb] in *;
        unfold element, id, class, attr, pseudoClass, pseudoElement;
        unfold bind at 1;
        try (rewrite Honce; destruct (flag bs _); [reflexivity|];
             unfold bind at 1);
        rewrite Hord; destruct (higher_set bs _); try reflexivity;
        unfold bind at 1; rewrite Hnew;
        unfold bind at 1; rewrite append_res_last; reflexivity.
    + destruct c; cbn [call];
        unfold element, id, class, attr, pseudoClass, pseudoElement,
          checkCallOnce, checkOrder, bind, get_bits, arr_get, arr_length;
        rewrite Ho, Hbs; reflexivity.
  - destruct c; cbn [call];
      unfold element, id, class, attr, pseudoClass, pseudoElement,
        checkCallOnce, checkOrder, bind, get_bits;
      rewrite Ho; reflexivity.
Qed.

(** ** Rendering and combining *)

Lemma set_res_run (h : heap) (l : loc) (s : string) :
  is_Some (objs h !! l) -> set_res l s h = (Ok tt, with_text l s h).
Proof. intros [o Ho]. unfold set_res, with_text. now rewrite Ho. Qed.

Lemma stringify_run (h : heap) (this : loc) (o : object) :
  objs h !! this = Some o ->
  stringify this h = (Ok (res o), with_text this "" h).
Proof.
  intros Ho. unfold stringify.
  bind_step (get_res_run _ _ _ Ho).
  bind_step (set_res_run _ _ "" (mk_is_Some _ _ Ho)).
  reflexivity.
Qed.

Lemma stringify_dangling (h : heap) (this : loc) :
  objs h !! this = None -> stringify this h = (Throw TypeError, h).
Proof. intros Ho. unfold stringify, bind, get_res. now rewrite Ho. Qed.

Lemma with_text_lookup (h : heap) (l l' : loc) (s : string) :
  objs (with_text l s h) !! l'
  = if decide (l' = l)
    then (fun o => Object s (bits o)) <$> objs h !! l
    else objs h !! l'.
Proof.
  unfold with_text. destruct (objs h !! l) as [o|] eqn:Ho; cbn [objs].
  - destruct (decide (l' = l)) as [->|Hne].
    + rewrite list_lookup_insert_eq; [reflexivity|].
      eapply lookup_lt_Some; eauto.
    + now rewrite list_lookup_insert_ne.
  - destruct (decide (l' = l)) as [->|Hne]; [now rewrite Ho|reflexivity].
Qed.

Lemma with_text_arrs (h : heap) (l : loc) (s : string) :
  arrs (with_text l s h) = arrs h.
Proof. unfold with_text. now destruct (objs h !! l). Qed.

Lemma with_text_length (h : heap) (l : loc) (s : string) :
  length (objs (with_text l s h)) = length (objs h).
Proof.
  unfold with_text. destruct (objs h !! l); cbn [objs]; [|reflexivity].
  apply length_insert.
Qed.

Lemma text_of_with_text (h : heap) (l l' : loc) (s : string) :
  text_of (with_text l s h) l'
  = if decide (l' = l) then (fun _ => s) <$> objs h !! l else text_of h l'.
Proof.
  unfold text_of. rewrite with_text_lookup.
  destruct (decide (l' = l)); [|reflexivity].
  now destruct (objs h !! l).
Qed.

Lemma flags_of_with_text (h : heap) (l l' : loc) (s : string) :
  flags_of (with_text l s h) l' = flags_of h l'.
Proof.
  unfold flags_of. rewrite with_text_lookup, with_text_arrs.
  destruct (decide (l' = l)) as [->|]; [|reflexivity].
  now destruct (objs h !! l).
Qed.

(** [combine] on three objects of the heap, any of which may be the same
    object: the second operand is rendered after the first was cleared. *)
Lemma combine_run (h : heap) (s1 s2 this : loc) (o1 o2 : object)
    (combinator : string) :
  objs h !! s1 = Some o1 -> objs h !! s2 = Some o2 ->
  is_Some (objs h !! this) ->
  combine s1 combinator s2 this h
  = (Ok this,
     with_text this
       (res o1 +:+ " " +:+ combinator +:+ " " +:+
        (if decide (s2 = s1) then "" else res o2))
       (with_text s2 "" (with_text s1 "" h))).
Proof.
  intros H1 H2 Ht. unfold combine.
  bind_step (stringify_run _ _ _ H1).
  assert (H2' : objs (with_text s1 "" h) !! s2
                = Some (if decide (s2 = s1) then Object "" (bits o1) else o2)).
  { rewrite with_text_lookup. destruct (decide (s2 = s1)) as [->|];
      [now rewrite H1|assumption]. }
  bind_step (stringify_run _ _ _ H2').
  assert (Ht' : is_Some (objs (with_text s2 "" (with_text s1 "" h)) !! this)).
  { apply lookup_lt_is_Some. rewrite !with_text_length.
    now apply lookup_lt_is_Some. }
  bind_step (set_res_run _ _ _ Ht').
  unfold ret. now destruct (decide (s2 = s1)).
Qed.

(** ** Observations after a successful call *)

Lemma extend_new_object (h : heap) (o : object) (c : category)
    (value : string) (bs : list bool) :
  objs (extend h o c value bs) !! length (objs h)
  = Some (Object (res o +:+ fragment c value) (length (arrs h))).
Proof. unfold extend. cbn [objs]. now apply list_lookup_middle. Qed.

Lemma extend_new_array (h : heap) (o : object) (c : category)
    (value : string) (bs : list bool) :
  arrs (extend h o c value bs) !! length (arrs h)
  = Some (store bs (rank c) true).
Proof. unfold extend. cbn [arrs]. now apply list_lookup_middle. Qed.

Lemma extend_old_object (h : heap) (o o' : object) (c : category)
    (value : string) (bs : list bool) (l : loc) :
  objs h !! l = Some o' -> objs (extend h o c value bs) !! l = Some o'.
Proof. intros Hl. unfold extend. cbn [objs]. now apply lookup_app_l_Some. Qed.

Lemma extend_old_array (h : heap) (o : object) (c : category)
    (value : string) (bs bs' : list bool) (a : loc) :
  arrs h !! a = Some bs' -> arrs (extend h o c value bs) !! a = Some bs'.
Proof. intros Ha. unfold extend. cbn [arrs]. now apply lookup_app_l_Some. Qed.

(** ** Valid chains *)

Lemma rank_inj (c c' : category) : rank c = rank c' -> c = c'.
Proof. destruct c, c'; simpl; congruence. Qed.

Lemma nondecreasing_tail (p : category * string)
    (rest : list (category * string)) :
  nondecreasing (p :: rest) = true -> nondecreasing rest = true.
Proof.
  destruct p as [c v]. destruct rest as [|[c' v'] rest]; [reflexivity|].
  cbn [nondecreasing]. intros H. now apply andb_true_iff in H as [_ H].
Qed.

Lemma nondecreasing_head (c : category) (value : string)
    (rest : list (category * string)) :
  nondecreasing ((c, value) :: rest) = true ->
  forall c' value', (c', value') ∈ rest -> rank c <= rank c'.
Proof.
  revert c value. induction rest as [|[c1 v1] rest IH]; intros c v Hnd c' v' Hin.
  - inversion Hin.
  - pose proof (nondecreasing_tail _ _ Hnd) as Htl.
    cbn [nondecreasing] in Hnd. apply andb_true_iff in Hnd as [Hle _].
    apply Nat.leb_le in Hle.
    apply elem_of_cons in Hin as [Heq|Hin].
    + now inversion Heq; subst.
    + specialize (IH c1 v1 Htl c' v' Hin). lia.
Qed.

Lemma uses_elem (c : category) (value : string)
    (calls : list (category * string)) :
  (c, value) ∈ calls -> 1 <= uses c calls.
Proof.
  induction calls as [|[c1 v1] rest IH]; intros Hin.
  - inversion Hin.
  - cbn [uses]. apply elem_of_cons in Hin as [Heq|Hin].
    + inversion Heq; subst. destruct (decide (c1 = c1)); [lia|congruence].
    + specialize (IH Hin). lia.
Qed.

Lemma valid_chain_single (c : category) (calls : list (category * string)) :
  valid_chain calls = true -> single c = true -> uses c calls <= 1.
Proof.
  unfold valid_chain. rewrite !andb_true_iff, !Nat.leb_le.
  intros [[[_ He] Hi] Hp] Hs. destruct c; simpl in Hs; congruence.
Qed.

Lemma valid_chain_tail (p : category * string)
    (rest : list (category * string)) :
  valid_chain (p :: rest) = true -> valid_chain rest = true.
Proof.
  unfold valid_chain. rewrite !andb_true_iff, !Nat.leb_le.
  intros [[[Hnd He] Hi] Hp]. destruct p as [c v]. cbn [uses] in *.
  repeat split; [now apply nondecreasing_tail in Hnd|lia..].
Qed.

(** The flags after a call of a valid chain let the rest of it through. *)
Lemma compatible_step (bs : list bool) (c : category) (value : string)
    (rest : list (category * string)) :
  valid_chain ((c, value) :: rest) = true ->
  compatible bs ((c, value) :: rest) ->
  compatible (store bs (rank c) true) rest.
Proof.
  intros Hv Hc c' v' Hin.
  assert (Hle : rank c <= rank c').
  { unfold valid_chain in Hv. rewrite !andb_true_iff in Hv.
    destruct Hv as [[[Hnd _] _] _]. eapply nondecreasing_head; eauto. }
  destruct (Hc c' v') as [Hhi Hown]; [now apply elem_of_cons; right|].
  split.
  - apply higher_set_false. intros i Hi. rewrite flag_store.
    destruct (decide (i = rank c)); [lia|].
    now apply (proj1 (higher_set_false bs (rank c'))).
  - intros Hs. rewrite flag_store.
    destruct (decide (rank c' = rank c)) as [Heq|Hne]; [|now apply Hown].
    apply rank_inj in Heq. subst c'.
    pose proof (valid_chain_single c _ Hv Hs) as Hu.
    pose proof (uses_elem c v' rest Hin) as Hu'.
    cbn [uses] in Hu. destruct (decide (c = c)); [lia|congruence].
Qed.

Lemma compatible_no_flags (calls : list (category * string)) :
  compatible no_flags calls.
Proof.
  intros c v _. split; [|intros _]; now destruct c.
Qed.

(** A chain on a receiver whose flags are compatible with it runs to its
    end, and the text of its last object is the receiver's text followed by
    the fragments. *)
Lemma chain_run (calls : list (category * string)) :
  forall (h : heap) (this : loc) (o : object) (bs : list bool),
  objs h !! this = Some o -> arrs h !! bits o = Some bs ->
  valid_chain calls = true -> compatible bs calls ->
  exists l h',
    chain calls this h = (Ok l, h') /\
    text_of h' l = Some (res o +:+ fragments calls).
Proof.
  induction calls as [|[c v] rest IH]; intros h this o bs Ho Hbs Hv Hc.
  - exists this, h. split; [reflexivity|].
    unfold text_of. rewrite Ho. cbn. now rewrite append_empty_r.
  - cbn [chain fragments].
    destruct (Hc c v) as [Hhi Hown]; [now apply elem_of_cons; left|].
    assert (Hcall : call c v this h
                    = (Ok (length (objs h)), extend h o c v bs)).
    { rewrite call_run. unfold call_outcome. rewrite Ho, Hbs, Hhi.
      destruct (single c); [now rewrite Hown|reflexivity]. }
    bind_step Hcall.
    destruct (IH (extend h o c v bs) (length (objs h)) _ _
                (extend_new_object h o c v bs)
                (extend_new_array h o c v bs)
                (valid_chain_tail _ _ Hv)
                (compatible_step _ _ _ _ Hv Hc)) as (l & h' & Hrun & Htext).
    exists l, h'. split; [assumption|].
    rewrite Htext. cbn [res]. now rewrite append_assoc.
Qed.

(** ** Chains from the fresh builder *)

(** C1: a chain of part-appending calls that starts from a fresh builder
    state (empty text, no flag set), is applied in non-decreasing category
    order and uses element, id and pseudoElement at most once each, runs to
    its end without any call throwing (a throwing call would end the chain
    with [Throw]), and rendering the object it returns gives the fragments
    of the calls concatenated in the order of the calls. *)
Theorem chain_renders_fragments (h : heap) (this : loc)
    (calls : list (category * string)) :
  text_of h this = Some "" -> flags_of h this = Some no_flags ->
  valid_chain calls = true ->
  exists l,
    result (chain calls this) h = Ok l /\
    result (stringify l) (after (chain calls this) h) = Ok (fragments calls).
Proof.
  unfold text_of, flags_of, result, after. intros Ht Hf Hv.
  destruct (objs h !! this) as [o|] eqn:Ho; [|discriminate].
  injection Ht as Ht.
  destruct (chain_run calls h this o no_flags Ho Hf Hv
              (compatible_no_flags calls)) as (l & h' & Hrun & Htext).
  exists l. rewrite Hrun. split; [reflexivity|]. cbn [fst snd].
  unfold text_of in Htext.
  destruct (objs h' !! l) as [o'|] eqn:Ho'; [|discriminate].
  injection Htext as Htext.
  rewrite (stringify_run _ _ _ Ho'). cbn [fst].
  now rewrite Htext, Ht.
Qed.

Lemma chain_renders_fragments_witness :
  exists l,
    result (chain [(Element, "div"); (Id, "main"); (Class, "wide");
                   (Class, "dark"); (Attribute, "lang"); (PseudoClass, "hover");
                   (PseudoClass, "focus"); (PseudoElement, "after")]
              cssSelectorBuilder) init_heap = Ok l /\
    result (stringify l)
      (after (chain [(Element, "div"); (Id, "main"); (Class, "wide");
                     (Class, "dark"); (Attribute, "lang"); (PseudoClass, "hover");
                     (PseudoClass, "focus"); (PseudoElement, "after")]
                cssSelectorBuilder) init_heap)
    = Ok "div#main.wide.dark[lang]:hover:focus::after".
Proof.
  apply (chain_renders_fragments init_heap cssSelectorBuilder
           [(Element, "div"); (Id, "main"); (Class, "wide");
            (Class, "dark"); (Attribute, "lang"); (PseudoClass, "hover");
            (PseudoClass, "focus"); (PseudoElement, "after")]);
    reflexivity.
Defined.

(** ** Rendering *)

(** C2, as the code has it: [stringify] returns the accumulated text of the
    object and resets that text to the empty string, so that a second
    [stringify] in succession returns the empty string. *)
Theorem stringify_returns_text_and_resets (h : heap) (this : loc)
    (t : string) :
  text_of h this = Some t ->
  result (stringify this) h = Ok t /\
  text_of (after (stringify this) h) this = Some "" /\
  result (stringify this) (after (stringify this) h) = Ok "".
Proof.
  unfold text_of, result, after. intros Ht.
  destruct (objs h !! this) as [o|] eqn:Ho; [|discriminate].
  injection Ht as Ht. rewrite (stringify_run _ _ _ Ho). cbn [fst snd].
  assert (Ho' : objs (with_text this "" h) !! this
                = Some (Object "" (bits o))).
  { rewrite with_text_lookup, Ho. now destruct (decide (this = this)). }
  rewrite (stringify_run _ _ _ Ho'), Ho'. now rewrite Ht.
Qed.

Lemma stringify_returns_text_and_resets_witness :
  result (stringify 1) heap_a = Ok "a" /\
  text_of (after (stringify 1) heap_a) 1 = Some "" /\
  result (stringify 1) (after (stringify 1) heap_a) = Ok "".
Proof.
  apply (stringify_returns_text_and_resets heap_a 1 "a"). reflexivity.
Defined.

(** C2 fails as stated: on the object built by [element('a')], the first
    [stringify] returns ['a'] and the second returns the empty string. *)
Lemma stringify_twice_differs :
  result (stringify 1) heap_a = Ok "a" /\
  result (stringify 1) (after (stringify 1) heap_a) = Ok "" /\
  result (stringify 1) (after (stringify 1) heap_a)
  <> result (stringify 1) heap_a.
Proof. split; [reflexivity|split; [reflexivity|discriminate]]. Qed.

(** ** The two checks *)

Lemma call_outcome_live (c : category) (value : string) (this : loc)
    (h : heap) (bs : list bool) :
  flags_of h this = Some bs ->
  result (call c value this) h
  = if single c && flag bs (rank c) then Throw DuplicatePartError
    else if higher_set bs (rank c) then Throw OrderingError
    else Ok (length (objs h)).
Proof.
  unfold flags_of, result. intros Hf. rewrite call_run. unfold call_outcome.
  destruct (objs h !! this) as [o|]; [|discriminate]. rewrite Hf.
  destruct (single c && flag bs (rank c)); [reflexivity|].
  now destruct (higher_set bs (rank c)).
Qed.

(** C3: on a receiver with flags [bs], [element], [id] and [pseudoElement]
    throw the duplicate-part error exactly when the flag of their own
    category (index 0, 1 and 5) is set, and [class], [attr] and [pseudoClass]
    never throw it. *)
Theorem duplicate_error_iff_flag_set (h : heap) (this : loc)
    (bs : list bool) (value : string) :
  flags_of h this = Some bs ->
  (result (element value this) h = Throw DuplicatePartError
   <-> flag bs 0 = true) /\
  (result (id value this) h = Throw DuplicatePartError
   <-> flag bs 1 = true) /\
  (result (pseudoElement value this) h = Throw DuplicatePartError
   <-> flag bs 5 = true) /\
  result (class value this) h <> Throw DuplicatePartError /\
  result (attr value this) h <> Throw DuplicatePartError /\
  result (pseudoClass value this) h <> Throw DuplicatePartError.
Proof.
  intros Hf.
  pose proof (call_outcome_live Element value this h bs Hf) as He.
  pose proof (call_outcome_live Id value this h bs Hf) as Hi.
  pose proof (call_outcome_live PseudoElement value this h bs Hf) as Hp.
  pose proof (call_outcome_live Class value this h bs Hf) as Hc.
  pose proof (call_outcome_live Attribute value this h bs Hf) as Ha.
  pose proof (call_outcome_live PseudoClass value this h bs Hf) as Hq.
  cbn [call single rank andb] in *.
  rewrite He, Hi, Hp, Hc, Ha, Hq.
  repeat split;
    repeat match goal with
           | |- context [if ?b then _ else _] => destruct b
           end; intros; congruence.
Qed.

Lemma duplicate_error_iff_flag_set_witness :
  (result (element "c" 2) heap_ab = Throw DuplicatePartError
   <-> flag [true; true; false; false; false; false] 0 = true) /\
  (result (id "c" 2) heap_ab = Throw DuplicatePartError
   <-> flag [true; true; false; false; false; false] 1 = true) /\
  (result (pseudoElement "c" 2) heap_ab = Throw DuplicatePartError
   <-> flag [true; true; false; false; false; false] 5 = true) /\
  result (class "c" 2) heap_ab <> Throw DuplicatePartError /\
  result (attr "c" 2) heap_ab <> Throw DuplicatePartError /\
  result (pseudoClass "c" 2) heap_ab <> Throw DuplicatePartError.
Proof.
  apply (duplicate_error_iff_flag_set heap_ab 2
           [true; true; false; false; false; false] "c").
  reflexivity.
Defined.

(** C4, as the code has it: a part-appending call on a receiver with flags
    [bs] throws the ordering error exactly when some flag at a strictly
    higher index than its category's is set and the call has not already
    thrown the duplicate-part error, which [element], [id] and
    [pseudoElement] check first.  For [class], [attr] and [pseudoClass] the
    flag of the category itself plays no part, so repeating them does not
    throw. *)
Theorem ordering_error_iff_higher_flag (h : heap) (this : loc)
    (bs : list bool) (c : category) (value : string) :
  flags_of h this = Some bs ->
  result (call c value this) h = Throw OrderingError
  <-> (exists i, rank c < i /\ flag bs i = true) /\
      ~ (single c = true /\ flag bs (rank c) = true).
Proof.
  intros Hf. rewrite (call_outcome_live c value this h bs Hf).
  rewrite <- higher_set_true.
  destruct (single c), (flag bs (rank c)), (higher_set bs (rank c));
    cbn [andb]; intuition congruence.
Qed.

Lemma ordering_error_iff_higher_flag_witness :
  result (call Class "c" 3) (after (attr "lang" 2) heap_ab)
  = Throw OrderingError
  <-> (exists i, rank Class < i /\
         flag [true; true; false; true; false; false] i = true) /\
      ~ (single Class = true /\
         flag [true; true; false; true; false; false] (rank Class) = true).
Proof.
  apply (ordering_error_iff_higher_flag (after (attr "lang" 2) heap_ab) 3
           [true; true; false; true; false; false] Class "c").
  reflexivity.
Defined.

(** C4 fails as stated: on the object built by [element('a').id('b')] the
    flag of id, above element, is set, and yet [element('c')] throws the
    duplicate-part error, not the ordering error. *)
Lemma ordering_error_masked_by_duplicate :
  flags_of heap_ab 2 = Some [true; true; false; false; false; false] /\
  (rank Element < rank Id /\
   flag [true; true; false; false; false; false] (rank Id) = true) /\
  result (element "c" 2) heap_ab = Throw DuplicatePartError /\
  result (element "c" 2) heap_ab <> Throw OrderingError.
Proof.
  split; [reflexivity|]. split; [split; [simpl; lia|reflexivity]|].
  split; [reflexivity|discriminate].
Qed.

(** C7: a part-appending call that throws leaves the heap as it was; so the
    receiver's text and flags are what they were, and whatever is run next
    runs as it would have run before the failed call.  This holds for both
    errors the source throws. *)
Theorem failed_call_leaves_heap (h : heap) (this : loc) (c : category)
    (value : string) (e : error) :
  result (call c value this) h = Throw e ->
  after (call c value this) h = h /\
  text_of (after (call c value this) h) this = text_of h this /\
  flags_of (after (call c value this) h) this = flags_of h this /\
  forall (A : Type) (m : M A), m (after (call c value this) h) = m h.
Proof.
  unfold result, after. rewrite call_run. unfold call_outcome. intros He.
  assert (Heq : snd (call_outcome c value this h) = h).
  { unfold call_outcome.
    destruct (objs h !! this) as [o|]; [|reflexivity].
    destruct (arrs h !! bits o) as [bs|]; [|reflexivity].
    destruct (single c && flag bs (rank c)); [reflexivity|].
    destruct (higher_set bs (rank c)); [reflexivity|discriminate]. }
  unfold call_outcome in Heq. rewrite Heq. auto.
Qed.

Lemma failed_call_leaves_heap_witness :
  after (call Element "c" 2) heap_ab = heap_ab /\
  text_of (after (call Element "c" 2) heap_ab) 2 = text_of heap_ab 2 /\
  flags_of (after (call Element "c" 2) heap_ab) 2 = flags_of heap_ab 2 /\
  forall (A : Type) (m : M A),
    m (after (call Element "c" 2) heap_ab) = m heap_ab.
Proof.
  apply (failed_call_leaves_heap heap_ab 2 Element "c" DuplicatePartError).
  reflexivity.
Defined.

(** ** Derivations from a common ancestor *)

Lemma call_ok_inv (c : category) (value : string) (this l : loc) (h : heap) :
  result (call c value this) h = Ok l ->
  exists o bs,
    objs h !! this = Some o /\ arrs h !! bits o = Some bs /\
    (single c && flag bs (rank c)) = false /\
    higher_set bs (rank c) = false /\
    l = length (objs h) /\
    call c value this h = (Ok l, extend h o c value bs).
Proof.
  unfold result. rewrite call_run. unfold call_outcome.
  destruct (objs h !! this) as [o|] eqn:Ho; [|discriminate].
  destruct (arrs h !! bits o) as [bs|] eqn:Hbs; [|discriminate].
  destruct (single c && flag bs (rank c)) eqn:Hown; [discriminate|].
  destruct (higher_set bs (rank c)) eqn:Hhi; [discriminate|].
  cbn [fst]. intros [= <-]. exists o, bs. repeat split; assumption.
Qed.

Lemma stringify_result (h : heap) (l : loc) (t : string) :
  text_of h l = Some t -> result (stringify l) h = Ok t.
Proof.
  unfold text_of, result. intros Ht.
  destruct (objs h !! l) as [o|] eqn:Ho; [|discriminate].
  injection Ht as <-. now rewrite (stringify_run _ _ _ Ho).
Qed.

Lemma stringify_after (h : heap) (l : loc) :
  after (stringify l) h = with_text l "" h.
Proof.
  unfold after. destruct (objs h !! l) as [o|] eqn:Ho.
  - now rewrite (stringify_run _ _ _ Ho).
  - rewrite (stringify_dangling _ _ Ho). unfold with_text. now rewrite Ho.
Qed.

Lemma text_of_stringify_other (h : heap) (l l' : loc) :
  l' <> l -> text_of (after (stringify l) h) l' = text_of h l'.
Proof.
  intros Hne. rewrite stringify_after, text_of_with_text.
  now destruct (decide (l' = l)).
Qed.

(** C8: from a state [s] with text [t], [A = s.class(x)] and
    [B = s.class(y)] are two different objects; the text of [A] is [t]
    followed by [.x] alone and the text of [B] is [t] followed by [.y] alone,
    and each renders to its own text whichever of the two is rendered
    first. *)
Theorem sibling_classes_independent (h : heap) (s A : loc)
    (t x y : string) :
  text_of h s = Some t ->
  result (class x s) h = Ok A ->
  exists B,
    result (class y s) (after (class x s) h) = Ok B /\
    A <> B /\
    text_of (after (class y s) (after (class x s) h)) A
    = Some (t +:+ "." +:+ x) /\
    text_of (after (class y s) (after (class x s) h)) B
    = Some (t +:+ "." +:+ y) /\
    result (stringify A) (after (class y s) (after (class x s) h))
    = Ok (t +:+ "." +:+ x) /\
    result (stringify B)
      (after (stringify A) (after (class y s) (after (class x s) h)))
    = Ok (t +:+ "." +:+ y) /\
    result (stringify B) (after (class y s) (after (class x s) h))
    = Ok (t +:+ "." +:+ y) /\
    result (stringify A)
      (after (stringify B) (after (class y s) (after (class x s) h)))
    = Ok (t +:+ "." +:+ x).
Proof.
  intros Ht HA.
  destruct (call_ok_inv Class x s A h HA)
    as (o & bs & Ho & Hbs & _ & Hhi & -> & Hx).
  change (call Class x s) with (class x s) in Hx.
  assert (Hres : res o = t) by (unfold text_of in Ht; rewrite Ho in Ht;
                                now injection Ht).
  set (h1 := extend h o Class x bs).
  assert (Ha1 : after (class x s) h = h1) by (unfold after; now rewrite Hx).
  assert (Ho1 : objs h1 !! s = Some o) by now apply extend_old_object.
  assert (Hbs1 : arrs h1 !! bits o = Some bs) by now apply extend_old_array.
  assert (Hy : class y s h1 = (Ok (length (objs h1)), extend h1 o Class y bs)).
  { change (class y s) with (call Class y s). rewrite call_run.
    unfold call_outcome. rewrite Ho1, Hbs1, Hhi. reflexivity. }
  set (h2 := extend h1 o Class y bs).
  assert (Ha2 : after (class y s) h1 = h2) by (unfold after; now rewrite Hy).
  assert (Hr2 : result (class y s) h1 = Ok (length (objs h1)))
    by (unfold result; now rewrite Hy).
  rewrite Ha1, Ha2. exists (length (objs h1)).
  assert (Hlen : length (objs h1) = S (length (objs h))).
  { unfold h1, extend. cbn [objs]. rewrite length_app. simpl. lia. }
  assert (HtA : text_of h2 (length (objs h)) = Some (t +:+ "." +:+ x)).
  { unfold text_of, h2.
    rewrite (extend_old_object h1 o _ Class y bs _
               (extend_new_object h o Class x bs)).
    cbn. now rewrite Hres. }
  assert (HtB : text_of h2 (length (objs h1)) = Some (t +:+ "." +:+ y)).
  { unfold text_of, h2. rewrite extend_new_object. cbn. now rewrite Hres. }
  split; [exact Hr2|]. split; [lia|].
  split; [exact HtA|]. split; [exact HtB|].
  split; [now apply stringify_result|].
  split; [apply stringify_result; rewrite <- HtB;
          apply text_of_stringify_other; lia|].
  split; [now apply stringify_result|].
  apply stringify_result. rewrite <- HtA.
  apply text_of_stringify_other. lia.
Qed.

Lemma sibling_classes_independent_witness :
  exists B,
    result (class "y" 2) (after (class "x" 2) heap_ab) = Ok B /\
    3 <> B /\
    text_of (after (class "y" 2) (after (class "x" 2) heap_ab)) 3
    = Some "a#b.x" /\
    text_of (after (class "y" 2) (after (class "x" 2) heap_ab)) B
    = Some "a#b.y" /\
    result (stringify 3) (after (class "y" 2) (after (class "x" 2) heap_ab))
    = Ok "a#b.x" /\
    result (stringify B)
      (after (stringify 3) (after (class "y" 2) (after (class "x" 2) heap_ab)))
    = Ok "a#b.y" /\
    result (stringify B) (after (class "y" 2) (after (class "x" 2) heap_ab))
    = Ok "a#b.y" /\
    result (stringify 3)
      (after (stringify B) (after (class "y" 2) (after (class "x" 2) heap_ab)))
    = Ok "a#b.x".
Proof.
  apply (sibling_classes_independent heap_ab 2 3 "a#b" "x" "y"); reflexivity.
Defined.

(** ** Combining *)

Lemma combine_after (h : heap) (s1 s2 this : loc) (o1 o2 : object)
    (combinator : string) :
  objs h !! s1 = Some o1 -> objs h !! s2 = Some o2 -> live h this ->
  result (combine s1 combinator s2 this) h = Ok this /\
  after (combine s1 combinator s2 this) h
  = with_text this
      (res o1 +:+ " " +:+ combinator +:+ " " +:+
       (if decide (s2 = s1) then "" else res o2))
      (with_text s2 "" (with_text s1 "" h)).
Proof.
  intros H1 H2 Ht. unfold result, after.
  now rewrite (combine_run h s1 s2 this o1 o2 combinator H1 H2 Ht).
Qed.

Lemma live_with_text (h : heap) (l l' : loc) (s : string) :
  live h l' -> live (with_text l s h) l'.
Proof.
  unfold live. intros Hl. apply lookup_lt_is_Some.
  rewrite with_text_length. now apply lookup_lt_is_Some.
Qed.

Lemma text_of_with_text_eq (h : heap) (l : loc) (s : string) :
  live h l -> text_of (with_text l s h) l = Some s.
Proof.
  intros [o Ho]. rewrite text_of_with_text, Ho.
  now destruct (decide (l = l)).
Qed.

Lemma text_of_with_text_ne (h : heap) (l l' : loc) (s : string) :
  l' <> l -> text_of (with_text l s h) l' = text_of h l'.
Proof.
  intros Hne. rewrite text_of_with_text. now destruct (decide (l' = l)).
Qed.

Lemma text_of_live (h : heap) (l : loc) (t : string) :
  text_of h l = Some t -> exists o, objs h !! l = Some o /\ res o = t.
Proof.
  unfold text_of. destruct (objs h !! l) as [o|]; [|discriminate].
  intros [= <-]. now exists o.
Qed.

(** C5, as the code has it: when [left] and [right] are two different
    objects with texts [t1] and [t2], [combine(left, combinator, right)]
    returns an object that renders to [t1], a space, the combinator as it
    was given, a space, and [t2]. *)
Theorem combine_renders_joined (h : heap) (s1 s2 this : loc)
    (t1 t2 combinator : string) :
  text_of h s1 = Some t1 -> text_of h s2 = Some t2 -> live h this ->
  s1 <> s2 ->
  exists r,
    result (combine s1 combinator s2 this) h = Ok r /\
    result (stringify r) (after (combine s1 combinator s2 this) h)
    = Ok (t1 +:+ " " +:+ combinator +:+ " " +:+ t2).
Proof.
  intros H1 H2 Ht Hne.
  destruct (text_of_live _ _ _ H1) as (o1 & Ho1 & <-).
  destruct (text_of_live _ _ _ H2) as (o2 & Ho2 & <-).
  destruct (combine_after h s1 s2 this o1 o2 combinator Ho1 Ho2 Ht)
    as [Hr Ha].
  exists this. split; [exact Hr|]. rewrite Ha.
  apply stringify_result.
  rewrite text_of_with_text_eq by now do 2 apply live_with_text.
  destruct (decide (s2 = s1)); [congruence|reflexivity].
Qed.

(** The example of the specification:
    [combine(element('div').id('main'), '+', element('span'))] renders to
    ['div#main + span']. *)
Lemma combine_renders_joined_witness :
  exists r,
    result (combine 2 "+" 3 cssSelectorBuilder) heap_div_span = Ok r /\
    result (stringify r) (after (combine 2 "+" 3 cssSelectorBuilder) heap_div_span)
    = Ok "div#main + span".
Proof.
  apply (combine_renders_joined heap_div_span 2 3 cssSelectorBuilder
           "div#main" "span" "+");
    [reflexivity|reflexivity|vm_compute; eauto|lia].
Defined.

(** C5 fails as stated when the same object is passed as both operands:
    with [a] built by [element('a')], whose text is ['a'],
    [combine(a, '+', a)] renders to ['a + '], the second rendering of [a]
    finding its text already cleared by the first. *)
Lemma combine_same_operand_twice :
  text_of heap_a 1 = Some "a" /\
  result (do r <- combine 1 "+" 1 cssSelectorBuilder ; stringify r) heap_a
  = Ok "a + " /\
  result (do r <- combine 1 "+" 1 cssSelectorBuilder ; stringify r) heap_a
  <> Ok "a + a".
Proof. split; [reflexivity|split; [reflexivity|discriminate]]. Qed.

(** C6, as the code has it: [combine] returns the receiver itself, not a
    new object.  It creates no object and no array; it stores the joined text
    in the receiver: the text of the left operand, a space, the combinator,
    a space, and the text the right operand renders to (its own text, or
    nothing when it is the object already rendered as the left operand); it
    leaves an operand that is not the receiver with the empty text; and
    apart from the texts of the receiver and of the two operands it changes
    nothing: every object keeps its flags, and every other object keeps its
    text. *)
Theorem combine_returns_receiver (h : heap) (s1 s2 this : loc)
    (t1 t2 combinator : string) :
  text_of h s1 = Some t1 -> text_of h s2 = Some t2 -> live h this ->
  result (combine s1 combinator s2 this) h = Ok this /\
  text_of (after (combine s1 combinator s2 this) h) this
  = Some (t1 +:+ " " +:+ combinator +:+ " " +:+
          (if decide (s2 = s1) then "" else t2)) /\
  (s1 <> this ->
   text_of (after (combine s1 combinator s2 this) h) s1 = Some "") /\
  (s2 <> this ->
   text_of (after (combine s1 combinator s2 this) h) s2 = Some "") /\
  length (objs (after (combine s1 combinator s2 this) h)) = length (objs h) /\
  arrs (after (combine s1 combinator s2 this) h) = arrs h /\
  (forall l, flags_of (after (combine s1 combinator s2 this) h) l
             = flags_of h l) /\
  (forall l, l <> s1 -> l <> s2 -> l <> this ->
             text_of (after (combine s1 combinator s2 this) h) l
             = text_of h l).
Proof.
  intros H1 H2 Ht.
  destruct (text_of_live _ _ _ H1) as (o1 & Ho1 & <-).
  destruct (text_of_live _ _ _ H2) as (o2 & Ho2 & <-).
  destruct (combine_after h s1 s2 this o1 o2 combinator Ho1 Ho2 Ht)
    as [Hr Ha].
  assert (Hl1 : live h s1) by (eexists; eauto).
  assert (Hl2 : live h s2) by (eexists; eauto).
  assert (Hs2 : text_of (with_text s2 "" (with_text s1 "" h)) s2 = Some "")
    by (apply text_of_with_text_eq; now apply live_with_text).
  assert (Hs1 : text_of (with_text s2 "" (with_text s1 "" h)) s1 = Some "").
  { destruct (decide (s1 = s2)) as [->|Hne]; [exact Hs2|].
    rewrite text_of_with_text_ne by assumption.
    now apply text_of_with_text_eq. }
  rewrite Ha. split; [exact Hr|].
  split; [apply text_of_with_text_eq; now do 2 apply live_with_text|].
  split; [intros Hne; now rewrite text_of_with_text_ne|].
  split; [intros Hne; now rewrite text_of_with_text_ne|].
  split; [now rewrite !with_text_length|].
  split; [now rewrite !with_text_arrs|].
  split; [intros l; now rewrite !flags_of_with_text|].
  intros l Hn1 Hn2 Hnt. now rewrite !text_of_with_text_ne.
Qed.

Lemma combine_returns_receiver_witness :
  result (combine 1 "+" 2 cssSelectorBuilder) heap_xyz
  = Ok cssSelectorBuilder /\
  text_of (after (combine 1 "+" 2 cssSelectorBuilder) heap_xyz)
    cssSelectorBuilder
  = Some "x + y" /\
  (1 <> cssSelectorBuilder ->
   text_of (after (combine 1 "+" 2 cssSelectorBuilder) heap_xyz) 1
   = Some "") /\
  (2 <> cssSelectorBuilder ->
   text_of (after (combine 1 "+" 2 cssSelectorBuilder) heap_xyz) 2
   = Some "") /\
  length (objs (after (combine 1 "+" 2 cssSelectorBuilder) heap_xyz))
  = length (objs heap_xyz) /\
  arrs (after (combine 1 "+" 2 cssSelectorBuilder) heap_xyz)
  = arrs heap_xyz /\
  (forall l, flags_of (after (combine 1 "+" 2 cssSelectorBuilder) heap_xyz) l
             = flags_of heap_xyz l) /\
  (forall l, l <> 1 -> l <> 2 -> l <> cssSelectorBuilder ->
             text_of (after (combine 1 "+" 2 cssSelectorBuilder) heap_xyz) l
             = text_of heap_xyz l).
Proof.
  apply (combine_returns_receiver heap_xyz 1 2 cssSelectorBuilder
           "x" "y" "+");
    [reflexivity|reflexivity|vm_compute; eauto].
Defined.

(** C6 fails as stated: [cssSelectorBuilder.combine(x, '+', y)] returns the
    receiver [cssSelectorBuilder], whose text it has changed from the empty
    string to ['x + y'], and it has cleared the text of the operand [x],
    an object returned earlier. *)
Lemma combine_result_is_mutated_receiver :
  result (combine 1 "+" 2 cssSelectorBuilder) heap_xyz
  = Ok cssSelectorBuilder /\
  text_of heap_xyz cssSelectorBuilder = Some "" /\
  text_of (after (combine 1 "+" 2 cssSelectorBuilder) heap_xyz)
    cssSelectorBuilder = Some "x + y" /\
  text_of heap_xyz 1 = Some "x" /\
  text_of (after (combine 1 "+" 2 cssSelectorBuilder) heap_xyz) 1 = Some "".
Proof. repeat (split; [reflexivity|]). reflexivity. Qed.

(** C9, as the code has it: after [combine] an operand that is not the
    receiver has the empty text, and rendering it returns the empty string;
    the receiver holds the joined text, also when it was passed as an
    operand. *)
Theorem combine_resets_operands_but_receiver (h : heap) (s1 s2 this : loc)
    (t1 t2 combinator : string) :
  text_of h s1 = Some t1 -> text_of h s2 = Some t2 -> live h this ->
  (s1 <> this ->
   text_of (after (combine s1 combinator s2 this) h) s1 = Some "" /\
   result (stringify s1) (after (combine s1 combinator s2 this) h) = Ok "") /\
  (s2 <> this ->
   text_of (after (combine s1 combinator s2 this) h) s2 = Some "" /\
   result (stringify s2) (after (combine s1 combinator s2 this) h) = Ok "") /\
  text_of (after (combine s1 combinator s2 this) h) this
  = Some (t1 +:+ " " +:+ combinator +:+ " " +:+
          (if decide (s2 = s1) then "" else t2)).
Proof.
  intros H1 H2 Ht.
  destruct (text_of_live _ _ _ H1) as (o1 & Ho1 & <-).
  destruct (text_of_live _ _ _ H2) as (o2 & Ho2 & <-).
  destruct (combine_after h s1 s2 this o1 o2 combinator Ho1 Ho2 Ht)
    as [_ Ha].
  rewrite Ha.
  assert (Hl1 : live h s1) by (eexists; eauto).
  assert (Hl2 : live h s2) by (eexists; eauto).
  assert (Hs2 : text_of (with_text s2 "" (with_text s1 "" h)) s2 = Some "")
    by (apply text_of_with_text_eq; now apply live_with_text).
  assert (Hs1 : text_of (with_text s2 "" (with_text s1 "" h)) s1 = Some "").
  { destruct (decide (s1 = s2)) as [->|Hne]; [exact Hs2|].
    rewrite text_of_with_text_ne by assumption.
    now apply text_of_with_text_eq. }
  split; [|split].
  - intros Hne.
    assert (text_of (with_text this
                       (res o1 +:+ " " +:+ combinator +:+ " " +:+
                        (if decide (s2 = s1) then "" else res o2))
                       (with_text s2 "" (with_text s1 "" h))) s1 = Some "")
      as Htext by now rewrite text_of_with_text_ne.
    split; [exact Htext|now apply stringify_result].
  - intros Hne.
    assert (text_of (with_text this
                       (res o1 +:+ " " +:+ combinator +:+ " " +:+
                        (if decide (s2 = s1) then "" else res o2))
                       (with_text s2 "" (with_text s1 "" h))) s2 = Some "")
      as Htext by now rewrite text_of_with_text_ne.
    split; [exact Htext|now apply stringify_result].
  - apply text_of_with_text_eq. now do 2 apply live_with_text.
Qed.

Lemma combine_resets_operands_but_receiver_witness :
  (1 <> cssSelectorBuilder ->
   text_of (after (combine 1 "+" 2 cssSelectorBuilder) heap_xyz) 1 = Some "" /\
   result (stringify 1) (after (combine 1 "+" 2 cssSelectorBuilder) heap_xyz)
   = Ok "") /\
  (2 <> cssSelectorBuilder ->
   text_of (after (combine 1 "+" 2 cssSelectorBuilder) heap_xyz) 2 = Some "" /\
   result (stringify 2) (after (combine 1 "+" 2 cssSelectorBuilder) heap_xyz)
   = Ok "") /\
  text_of (after (combine 1 "+" 2 cssSelectorBuilder) heap_xyz)
    cssSelectorBuilder
  = Some "x + y".
Proof.
  apply (combine_resets_operands_but_receiver heap_xyz 1 2 cssSelectorBuilder
           "x" "y" "+");
    [reflexivity|reflexivity|vm_compute; eauto].
Defined.

(** C9 fails as stated when an operand is the receiver, as in the nested
    call of the source's documentation,
    [cssSelectorBuilder.combine(x, '+', cssSelectorBuilder.combine(y, '~', z))]:
    the inner call returns [cssSelectorBuilder], which is then the right
    operand of the outer call, and after the outer call it holds the joined
    text and renders to it. *)
Lemma combine_operand_receiver_keeps_text :
  result (combine 2 "~" 3 cssSelectorBuilder) heap_xyz
  = Ok cssSelectorBuilder /\
  text_of (after (combine 1 "+" cssSelectorBuilder cssSelectorBuilder)
             (after (combine 2 "~" 3 cssSelectorBuilder) heap_xyz))
    cssSelectorBuilder
  = Some "x + y ~ z" /\
  result (stringify cssSelectorBuilder)
    (after (combine 1 "+" cssSelectorBuilder cssSelectorBuilder)
       (after (combine 2 "~" 3 cssSelectorBuilder) heap_xyz))
  = Ok "x + y ~ z" /\
  result (stringify cssSelectorBuilder)
    (after (combine 1 "+" cssSelectorBuilder cssSelectorBuilder)
       (after (combine 2 "~" 3 cssSelectorBuilder) heap_xyz))
  <> Ok "".
Proof.
  split; [reflexivity|]. split; [reflexivity|].
  split; [reflexivity|discriminate].
Qed.

(** ** The builder object in a running program *)

Lemma flags_of_extend (h : heap) (o : object) (c : category)
    (value : string) (bs bs' : list bool) (l : loc) :
  flags_of h l = Some bs' -> flags_of (extend h o c value bs) l = Some bs'.
Proof.
  unfold flags_of. intros Hf.
  destruct (objs h !! l) as [o'|] eqn:Ho'; [|discriminate].
  rewrite (extend_old_object h o o' c value bs l Ho').
  now apply extend_old_array.
Qed.

Lemma flags_of_after_call (h : heap) (c : category) (value : string)
    (this l : loc) (bs : list bool) :
  flags_of h l = Some bs ->
  flags_of (after (call c value this) h) l = Some bs.
Proof.
  intros Hf. unfold after. rewrite call_run. unfold call_outcome.
  destruct (objs h !! this) as [o|]; [|exact Hf].
  destruct (arrs h !! bits o) as [bs0|]; [|exact Hf].
  destruct (single c && flag bs0 (rank c)); [exact Hf|].
  destruct (higher_set bs0 (rank c)); [exact Hf|].
  now apply flags_of_extend.
Qed.

(** No method writes to the array of the builder object: its flags stay as
    the module created them. *)
Lemma builder_flags_unset (h : heap) :
  reachable h -> flags_of h cssSelectorBuilder = Some no_flags.
Proof.
  induction 1 as [|h a Hr IH Hlive]; [reflexivity|].
  destruct a as [c v this|this|s1 comb s2 this]; cbn [step on_live] in *.
  - now apply flags_of_after_call.
  - now rewrite stringify_after, flags_of_with_text.
  - destruct Hlive as ([o1 Ho1] & [o2 Ho2] & Ht).
    destruct (combine_after h s1 s2 this o1 o2 comb Ho1 Ho2 Ht) as [_ ->].
    now rewrite !flags_of_with_text.
Qed.

Lemma no_flags_pass (c : category) :
  (single c && flag no_flags (rank c)) = false /\
  higher_set no_flags (rank c) = false.
Proof. now destruct c. Qed.

(** C10: in a running program, [combine] called on [cssSelectorBuilder]
    returns [cssSelectorBuilder], whose six flags are all false; so every
    part-appending method, the single-use ones included, succeeds on the
    combined state and returns an object whose text is the combined text
    followed by the method's fragment. *)
Theorem combined_state_is_extendable (h : heap) (s1 s2 : loc)
    (combinator : string) (c : category) (value : string) :
  reachable h -> live h s1 -> live h s2 ->
  result (combine s1 combinator s2 cssSelectorBuilder) h
  = Ok cssSelectorBuilder /\
  flags_of (after (combine s1 combinator s2 cssSelectorBuilder) h)
    cssSelectorBuilder
  = Some [false; false; false; false; false; false] /\
  exists joined l,
    text_of (after (combine s1 combinator s2 cssSelectorBuilder) h)
      cssSelectorBuilder = Some joined /\
    result (call c value cssSelectorBuilder)
      (after (combine s1 combinator s2 cssSelectorBuilder) h) = Ok l /\
    text_of (after (call c value cssSelectorBuilder)
               (after (combine s1 combinator s2 cssSelectorBuilder) h)) l
    = Some (joined +:+ fragment c value).
Proof.
  intros Hr Hl1 Hl2.
  assert (Hb : live h cssSelectorBuilder).
  { pose proof (builder_flags_unset h Hr) as Hf. unfold flags_of in Hf.
    unfold live. destruct (objs h !! cssSelectorBuilder); [eauto|discriminate]. }
  assert (Hr' : reachable (step (Combine s1 combinator s2 cssSelectorBuilder) h))
    by (apply reachable_step; cbn [on_live]; auto).
  cbn [step] in Hr'.
  pose proof (builder_flags_unset _ Hr') as Hf.
  destruct Hl1 as [o1 Ho1], Hl2 as [o2 Ho2].
  destruct (combine_after h s1 s2 cssSelectorBuilder o1 o2 combinator
              Ho1 Ho2 Hb) as [Hres _].
  split; [exact Hres|]. split; [exact Hf|].
  set (h' := after (combine s1 combinator s2 cssSelectorBuilder) h) in *.
  unfold flags_of in Hf.
  destruct (objs h' !! cssSelectorBuilder) as [o|] eqn:Ho; [|discriminate].
  destruct (no_flags_pass c) as [Hown Hhi].
  assert (Hcall : call c value cssSelectorBuilder h'
                  = (Ok (length (objs h')), extend h' o c value no_flags)).
  { rewrite call_run. unfold call_outcome. now rewrite Ho, Hf, Hown, Hhi. }
  exists (res o), (length (objs h')).
  unfold text_of, result, after. rewrite Ho, Hcall. cbn [fst snd].
  rewrite extend_new_object. auto.
Qed.

Lemma combined_state_is_extendable_witness :
  result (combine 1 "+" 2 cssSelectorBuilder) heap_xyz
  = Ok cssSelectorBuilder /\
  flags_of (after (combine 1 "+" 2 cssSelectorBuilder) heap_xyz)
    cssSelectorBuilder
  = Some [false; false; false; false; false; false] /\
  exists joined l,
    text_of (after (combine 1 "+" 2 cssSelectorBuilder) heap_xyz)
      cssSelectorBuilder = Some joined /\
    result (call Id "w" cssSelectorBuilder)
      (after (combine 1 "+" 2 cssSelectorBuilder) heap_xyz) = Ok l /\
    text_of (after (call Id "w" cssSelectorBuilder)
               (after (combine 1 "+" 2 cssSelectorBuilder) heap_xyz)) l
    = Some (joined +:+ fragment Id "w").
Proof.
  apply (combined_state_is_extendable heap_xyz 1 2 "+" Id "w");
    [|vm_compute; eauto..].
  change heap_xyz
    with (step (Call Element "z" cssSelectorBuilder)
            (step (Call Element "y" cssSelectorBuilder)
               (step (Call Element "x" cssSelectorBuilder) init_heap))).
  repeat (apply reachable_step; [|vm_compute; eauto]).
  apply reachable_init.
Defined.

(** ** Objects of a running program

    Every object a client can hold has a flags array of its own kind: the
    [bits] reference is never dangling and the array has six elements, so
    the [TypeError] of the model does not arise from the methods. *)
Lemma store_length (bs : list bool) (i : nat) (v : bool) :
  i < length bs -> length (store bs i v) = length bs.
Proof.
  intros Hi. unfold store. destruct (decide (i < length bs)); [|lia].
  apply length_insert.
Qed.

Lemma rank_lt_6 (c : category) : rank c < 6.
Proof. destruct c; simpl; lia. Qed.

Lemma six_flags_extend (h : heap) (o : object) (c : category)
    (value : string) (bs : list bool) :
  length bs = 6 ->
  (forall l o', objs h !! l = Some o' ->
     exists bs', arrs h !! bits o' = Some bs' /\ length bs' = 6) ->
  forall l o', objs (extend h o c value bs) !! l = Some o' ->
    exists bs', arrs (extend h o c value bs) !! bits o' = Some bs' /\
                length bs' = 6.
Proof.
  intros Hlen Hwf l o' Hl. unfold extend in *. cbn [objs arrs] in *.
  apply lookup_app_Some in Hl as [Hl|[_ Hl]].
  - destruct (Hwf l o' Hl) as (bs' & Hbs' & Hlen').
    exists bs'. split; [now apply lookup_app_l_Some|assumption].
  - apply list_lookup_singleton_Some in Hl as [_ <-]. cbn [bits].
    exists (store bs (rank c) true). split.
    + now apply list_lookup_middle.
    + rewrite store_length; [assumption|]. rewrite Hlen. apply rank_lt_6.
Qed.

Lemma six_flags_with_text (h : heap) (l0 : loc) (s : string) :
  (forall l o', objs h !! l = Some o' ->
     exists bs', arrs h !! bits o' = Some bs' /\ length bs' = 6) ->
  forall l o', objs (with_text l0 s h) !! l = Some o' ->
    exists bs', arrs (with_text l0 s h) !! bits o' = Some bs' /\
                length bs' = 6.
Proof.
  intros Hwf l o' Hl. rewrite with_text_arrs. rewrite with_text_lookup in Hl.
  destruct (decide (l = l0)) as [->|Hne]; [|now apply (Hwf l)].
  destruct (objs h !! l0) as [o0|] eqn:Ho0; [|discriminate].
  cbn in Hl. injection Hl as <-. cbn [bits]. now apply (Hwf l0).
Qed.

Lemma reachable_six_flags (h : heap) :
  reachable h ->
  forall l o, objs h !! l = Some o ->
    exists bs, arrs h !! bits o = Some bs /\ length bs = 6.
Proof.
  induction 1 as [|h a Hr IH Hlive].
  - intros [|l] o Hl; [|discriminate]. injection Hl as <-.
    now exists no_flags.
  - destruct a as [c v this|this|s1 comb s2 this]; cbn [step on_live] in *.
    + unfold after. rewrite call_run. unfold call_outcome.
      destruct (objs h !! this) as [o|] eqn:Ho; [|exact IH].
      destruct (arrs h !! bits o) as [bs|] eqn:Hbs; [|exact IH].
      destruct (single c && flag bs (rank c)); [exact IH|].
      destruct (higher_set bs (rank c)); [exact IH|]. cbn [snd].
      apply six_flags_extend; [|exact IH].
      destruct (IH this o Ho) as (bs' & Hbs' & Hlen). congruence.
    + rewrite stringify_after. now apply six_flags_with_text.
    + destruct Hlive as ([o1 Ho1] & [o2 Ho2] & Ht).
      destruct (combine_after h s1 s2 this o1 o2 comb Ho1 Ho2 Ht) as [_ ->].
      now do 3 apply six_flags_with_text.
Qed.

(** In a running program every live object has six flags. *)
Lemma reachable_flags_of (h : heap) (l : loc) :
  reachable h -> live h l ->
  exists bs, flags_of h l = Some bs /\ length bs = 6.
Proof.
  intros Hr [o Ho]. unfold flags_of. rewrite Ho.
  now apply (reachable_six_flags h Hr l).
Qed.

(** * Further properties of the builder *)

(** ** What a successful call leaves and what it creates *)

Lemma text_of_extend (h : heap) (o : object) (c : category)
    (value : string) (bs : list bool) (l : loc) (t : string) :
  text_of h l = Some t -> text_of (extend h o c value bs) l = Some t.
Proof.
  unfold text_of. intros Ht.
  destruct (objs h !! l) as [o'|] eqn:Ho'; [|discriminate].
  now rewrite (extend_old_object h o o' c value bs l Ho').
Qed.

(** X1: a part-appending call that succeeds returns a reference that was
    not in use, adds exactly one object and one array to the heap, and
    leaves every object that existed, the receiver included, with the text
    and the flags it had. *)
Theorem successful_call_frame (h : heap) (this l : loc) (c : category)
    (value : string) :
  result (call c value this) h = Ok l ->
  ~ live h l /\
  live (after (call c value this) h) l /\
  length (objs (after (call c value this) h)) = S (length (objs h)) /\
  length (arrs (after (call c value this) h)) = S (length (arrs h)) /\
  (forall l' t, text_of h l' = Some t ->
     text_of (after (call c value this) h) l' = Some t) /\
  (forall l' bs, flags_of h l' = Some bs ->
     flags_of (after (call c value this) h) l' = Some bs).
Proof.
  intros Hok.
  destruct (call_ok_inv c value this l h Hok)
    as (o & bs & Ho & Hbs & _ & _ & -> & Hrun).
  unfold after. rewrite Hrun. cbn [snd].
  split; [|split; [|split; [|split; [|split]]]].
  - unfold live. rewrite lookup_ge_None_2 by lia. now intros [? ?].
  - unfold live. rewrite extend_new_object. eauto.
  - unfold extend. cbn [objs]. rewrite length_app. simpl. lia.
  - unfold extend. cbn [arrs]. rewrite length_app. simpl. lia.
  - intros l' t. apply text_of_extend.
  - intros l' bs'. apply flags_of_extend.
Qed.

Lemma successful_call_frame_witness :
  ~ live heap_ab 3 /\
  live (after (call Class "c" 2) heap_ab) 3 /\
  length (objs (after (call Class "c" 2) heap_ab)) = S (length (objs heap_ab)) /\
  length (arrs (after (call Class "c" 2) heap_ab)) = S (length (arrs heap_ab)) /\
  (forall l' t, text_of heap_ab l' = Some t ->
     text_of (after (call Class "c" 2) heap_ab) l' = Some t) /\
  (forall l' bs, flags_of heap_ab l' = Some bs ->
     flags_of (after (call Class "c" 2) heap_ab) l' = Some bs).
Proof.
  apply (successful_call_frame heap_ab 2 3 Class "c"). reflexivity.
Defined.

(** X2: the object a successful call returns has the receiver's text
    followed by the fragment, and flags that are the receiver's with the
    flag of the category set: every other index reads as in the receiver. *)
Theorem successful_call_state (h : heap) (this l : loc) (c : category)
    (value t : string) (bs : list bool) :
  text_of h this = Some t -> flags_of h this = Some bs ->
  result (call c value this) h = Ok l ->
  text_of (after (call c value this) h) l = Some (t +:+ fragment c value) /\
  exists bs',
    flags_of (after (call c value this) h) l = Some bs' /\
    forall j, flag bs' j = if decide (j = rank c) then true else flag bs j.
Proof.
  intros Ht Hf Hok.
  destruct (call_ok_inv c value this l h Hok)
    as (o & bs0 & Ho & Hbs & _ & _ & -> & Hrun).
  unfold text_of in Ht. unfold flags_of in Hf. rewrite Ho in Ht, Hf.
  injection Ht as <-. rewrite Hbs in Hf. injection Hf as ->.
  unfold after. rewrite Hrun. cbn [snd]. split.
  - unfold text_of. now rewrite extend_new_object.
  - exists (store bs (rank c) true). split.
    + unfold flags_of. rewrite extend_new_object. cbn [bits].
      apply extend_new_array.
    + intros j. apply flag_store.
Qed.

Lemma successful_call_state_witness :
  text_of (after (call Class "c" 2) heap_ab) 3
  = Some ("a#b" +:+ fragment Class "c") /\
  exists bs',
    flags_of (after (call Class "c" 2) heap_ab) 3 = Some bs' /\
    forall j, flag bs' j
              = if decide (j = rank Class) then true
                else flag [true; true; false; false; false; false] j.
Proof.
  apply (successful_call_state heap_ab 2 3 Class "c" "a#b"
           [true; true; false; false; false; false]); reflexivity.
Defined.

(** ** Rendering and the flags *)

(** X3: [stringify] changes nothing but the text of its receiver: it
    creates no object, writes to no array, and every object keeps its flags
    and every other object its text. *)
Theorem stringify_frame (h : heap) (this : loc) :
  length (objs (after (stringify this) h)) = length (objs h) /\
  arrs (after (stringify this) h) = arrs h /\
  (forall l, flags_of (after (stringify this) h) l = flags_of h l) /\
  (forall l, l <> this ->
     text_of (after (stringify this) h) l = text_of h l).
Proof.
  rewrite stringify_after.
  split; [apply with_text_length|].
  split; [apply with_text_arrs|].
  split; [intros l; apply flags_of_with_text|].
  intros l Hne. now apply text_of_with_text_ne.
Qed.

(** X4: rendering an object clears its text but not its flags, so a
    part-appending call made on it afterwards has the outcome it would have
    had before (the same error, or success), and when it succeeds the new
    object's text is the fragment alone: the text rendered earlier is not
    part of it. *)
Theorem call_after_stringify (h : heap) (this : loc) (c : category)
    (value : string) :
  live h this ->
  result (call c value this) (after (stringify this) h)
  = result (call c value this) h /\
  forall l, result (call c value this) h = Ok l ->
    text_of (after (call c value this) (after (stringify this) h)) l
    = Some (fragment c value).
Proof.
  intros [o Ho]. rewrite stringify_after.
  assert (Ho' : objs (with_text this "" h) !! this
                = Some (Object "" (bits o))).
  { rewrite with_text_lookup, Ho. now destruct (decide (this = this)). }
  unfold result, after. rewrite !call_run. unfold call_outcome.
  rewrite Ho, Ho', with_text_arrs, with_text_length. cbn [bits].
  destruct (arrs h !! bits o) as [bs|]; [|split; [reflexivity|discriminate]].
  destruct (single c && flag bs (rank c));
    [split; [reflexivity|discriminate]|].
  destruct (higher_set bs (rank c)); [split; [reflexivity|discriminate]|].
  cbn [fst snd]. split; [reflexivity|]. intros l [= <-].
  unfold text_of. rewrite <- (with_text_length h this "").
  now rewrite extend_new_object.
Qed.

Lemma call_after_stringify_witness :
  result (call Id "x" 1) (after (stringify 1) heap_a)
  = result (call Id "x" 1) heap_a /\
  forall l, result (call Id "x" 1) heap_a = Ok l ->
    text_of (after (call Id "x" 1) (after (stringify 1) heap_a)) l
    = Some (fragment Id "x").
Proof.
  apply (call_after_stringify heap_a 1 Id "x"). vm_compute. eauto.
Defined.

(** ** Chains: what the checks accept *)

Lemma uses_absent (c : category) (calls : list (category * string)) :
  (forall value, (c, value) ∉ calls) -> uses c calls = 0.
Proof.
  induction calls as [|[c1 v1] rest IH]; intros Habs; [reflexivity|].
  cbn [uses]. destruct (decide (c1 = c)) as [->|Hne].
  - exfalso. apply (Habs v1). now left.
  - rewrite IH; [reflexivity|]. intros v Hin. apply (Habs v). now right.
Qed.

Lemma uses_other (c c' : category) (value : string)
    (rest : list (category * string)) :
  c' <> c -> uses c ((c', value) :: rest) = uses c rest.
Proof. intros Hne. cbn [uses]. now destruct (decide (c' = c)). Qed.

Lemma nondecreasing_cons (c : category) (value : string)
    (rest : list (category * string)) :
  nondecreasing rest = true ->
  (forall c' value', (c', value') ∈ rest -> rank c <= rank c') ->
  nondecreasing ((c, value) :: rest) = true.
Proof.
  intros Hnd Hle. destruct rest as [|[c' v'] rest]; [reflexivity|].
  cbn [nondecreasing] in *. apply andb_true_iff. split; [|exact Hnd].
  apply Nat.leb_le. apply (Hle c' v'). now left.
Qed.

Lemma valid_chain_cons (c : category) (value : string)
    (rest : list (category * string)) :
  valid_chain rest = true ->
  (forall c' value', (c', value') ∈ rest -> rank c <= rank c') ->
  (single c = true -> forall value', (c, value') ∉ rest) ->
  valid_chain ((c, value) :: rest) = true.
Proof.
  unfold valid_chain. rewrite !andb_true_iff, !Nat.leb_le.
  intros [[[Hnd He] Hi] Hp] Hle Hs.
  split; [split; [split|]|]; [now apply nondecreasing_cons|..];
    destruct c; try (rewrite uses_other by discriminate; assumption);
    cbn [uses]; rewrite (uses_absent _ rest (Hs eq_refl));
    now destruct (decide _).
Qed.

(** A chain that runs to its end on a receiver with flags [bs] is valid, and
    [bs] is compatible with it. *)
Lemma chain_ok_valid (calls : list (category * string)) :
  forall (h : heap) (this : loc) (o : object) (bs : list bool),
  objs h !! this = Some o -> arrs h !! bits o = Some bs ->
  (exists l, result (chain calls this) h = Ok l) ->
  valid_chain calls = true /\ compatible bs calls.
Proof.
  induction calls as [|[c v] rest IH]; intros h this o bs Ho Hbs [l Hok].
  - split; [reflexivity|]. intros c v Hin. inversion Hin.
  - unfold result in Hok. cbn [chain] in Hok. unfold bind in Hok.
    rewrite call_run in Hok. unfold call_outcome in Hok.
    rewrite Ho, Hbs in Hok.
    destruct (single c && flag bs (rank c)) eqn:Hown; [discriminate|].
    destruct (higher_set bs (rank c)) eqn:Hhi; [discriminate|].
    destruct (IH (extend h o c v bs) (length (objs h)) _ _
                (extend_new_object h o c v bs)
                (extend_new_array h o c v bs)
                (ex_intro _ l Hok)) as [Hv Hc].
    assert (Hle : forall c' v', (c', v') ∈ rest -> rank c <= rank c').
    { intros c' v' Hin. destruct (Hc c' v' Hin) as [Hhi' _].
      destruct (decide (rank c <= rank c')) as [|Hgt]; [assumption|].
      rewrite higher_set_false in Hhi'.
      specialize (Hhi' (rank c) ltac:(lia)). rewrite flag_store in Hhi'.
      now destruct (decide (rank c = rank c)). }
    assert (Habs : single c = true -> forall v', (c, v') ∉ rest).
    { intros Hs v' Hin. destruct (Hc c v' Hin) as [_ Hf].
      specialize (Hf Hs). rewrite flag_store in Hf.
      now destruct (decide (rank c = rank c)). }
    split; [now apply valid_chain_cons|].
    intros c' v' Hin. apply elem_of_cons in Hin as [[= -> ->]|Hin].
    + split; [exact Hhi|]. intros Hs. rewrite Hs in Hown. exact Hown.
    + destruct (Hc c' v' Hin) as [Hhi' Hf']. split.
      * apply higher_set_false. intros i Hi.
        rewrite higher_set_false in Hhi'. specialize (Hhi' i Hi).
        rewrite flag_store in Hhi'. now destruct (decide (i = rank c)).
      * intros Hs. specialize (Hf' Hs). rewrite flag_store in Hf'.
        now destruct (decide (rank c' = rank c)).
Qed.

(** A chain on an object of a well-formed heap ends with a reference or
    with one of the two errors of the source. *)
Lemma chain_outcomes (calls : list (category * string)) :
  forall (h : heap) (this : loc) (o : object) (bs : list bool),
  objs h !! this = Some o -> arrs h !! bits o = Some bs ->
  (exists l, result (chain calls this) h = Ok l) \/
  result (chain calls this) h = Throw DuplicatePartError \/
  result (chain calls this) h = Throw OrderingError.
Proof.
  induction calls as [|[c v] rest IH]; intros h this o bs Ho Hbs.
  - left. now exists this.
  - unfold result. cbn [chain]. unfold bind.
    rewrite call_run. unfold call_outcome. rewrite Ho, Hbs.
    destruct (single c && flag bs (rank c)); [right; now left|].
    destruct (higher_set bs (rank c)); [right; now right|].
    apply (IH (extend h o c v bs) (length (objs h)) _ _
             (extend_new_object h o c v bs) (extend_new_array h o c v bs)).
Qed.

(** X5: from a fresh builder state a chain of part-appending calls runs to
    its end exactly when it is in non-decreasing category order with
    element, id and pseudoElement used at most once; any other chain ends
    with the duplicate-part error or the ordering error. *)
Theorem chain_succeeds_iff_valid (h : heap) (this : loc)
    (calls : list (category * string)) :
  text_of h this = Some "" -> flags_of h this = Some no_flags ->
  ((exists l, result (chain calls this) h = Ok l)
   <-> valid_chain calls = true) /\
  (valid_chain calls = false ->
   result (chain calls this) h = Throw DuplicatePartError \/
   result (chain calls this) h = Throw OrderingError).
Proof.
  unfold text_of, flags_of. intros Ht Hf.
  destruct (objs h !! this) as [o|] eqn:Ho; [|discriminate].
  assert (Hiff : (exists l, result (chain calls this) h = Ok l)
                 <-> valid_chain calls = true).
  { split.
    - intros Hok. now apply (chain_ok_valid calls h this o no_flags Ho Hf).
    - intros Hv.
      destruct (chain_run calls h this o no_flags Ho Hf Hv
                  (compatible_no_flags calls)) as (l & h' & Hrun & _).
      exists l. unfold result. now rewrite Hrun. }
  split; [exact Hiff|]. intros Hinv.
  destruct (chain_outcomes calls h this o no_flags Ho Hf) as [Hok|Herr];
    [|exact Herr].
  apply Hiff in Hok. congruence.
Qed.

Lemma chain_succeeds_iff_valid_witness :
  ((exists l, result (chain [(Class, "c"); (Id, "x")] cssSelectorBuilder)
                init_heap = Ok l)
   <-> valid_chain [(Class, "c"); (Id, "x")] = true) /\
  (valid_chain [(Class, "c"); (Id, "x")] = false ->
   result (chain [(Class, "c"); (Id, "x")] cssSelectorBuilder) init_heap
   = Throw DuplicatePartError \/
   result (chain [(Class, "c"); (Id, "x")] cssSelectorBuilder) init_heap
   = Throw OrderingError).
Proof.
  apply (chain_succeeds_iff_valid init_heap cssSelectorBuilder
           [(Class, "c"); (Id, "x")]); reflexivity.
Defined.

Lemma chain_flags (calls : list (category * string)) :
  forall (h h' : heap) (this l : loc) (o : object) (bs : list bool),
  objs h !! this = Some o -> arrs h !! bits o = Some bs ->
  chain calls this h = (Ok l, h') ->
  exists bs',
    flags_of h' l = Some bs' /\
    forall i, flag bs' i = true
              <-> flag bs i = true \/
                  exists c value, (c, value) ∈ calls /\ rank c = i.
Proof.
  induction calls as [|[c v] rest IH]; intros h h' this l o bs Ho Hbs Hrun.
  - cbn [chain] in Hrun. injection Hrun as <- <-.
    exists bs. split; [unfold flags_of; now rewrite Ho|].
    intros i. split; [now left|].
    intros [Hi|(c & v & Hin & _)]; [exact Hi|inversion Hin].
  - cbn [chain] in Hrun. unfold bind in Hrun.
    rewrite call_run in Hrun. unfold call_outcome in Hrun.
    rewrite Ho, Hbs in Hrun.
    destruct (single c && flag bs (rank c)); [discriminate|].
    destruct (higher_set bs (rank c)); [discriminate|].
    destruct (IH (extend h o c v bs) h' (length (objs h)) l _ _
                (extend_new_object h o c v bs)
                (extend_new_array h o c v bs) Hrun) as (bs' & Hf & Hiff).
    exists bs'. split; [exact Hf|]. intros i. rewrite Hiff, flag_store.
    split.
    + intros [Hi|(c' & v' & Hin & Hr)].
      * destruct (decide (i = rank c)) as [->|]; [|now left].
        right. exists c, v. split; [now left|reflexivity].
      * right. exists c', v'. split; [now right|exact Hr].
    + intros [Hi|(c' & v' & Hin & Hr)].
      * left. now destruct (decide (i = rank c)).
      * apply elem_of_cons in Hin as [[= -> ->]|Hin].
        -- left. subst i. now destruct (decide (rank c = rank c)).
        -- right. now exists c', v'.
Qed.

(** X6: after a chain that ran to its end, the flags of the object it
    returns are the receiver's together with those of the categories called:
    a flag is set exactly when it was set in the receiver or some call of
    the chain was of its category.  No call clears a flag. *)
Theorem chain_flags_record_categories (h : heap) (this l : loc)
    (bs : list bool) (calls : list (category * string)) :
  flags_of h this = Some bs ->
  result (chain calls this) h = Ok l ->
  exists bs',
    flags_of (after (chain calls this) h) l = Some bs' /\
    forall i, flag bs' i = true
              <-> flag bs i = true \/
                  exists c value, (c, value) ∈ calls /\ rank c = i.
Proof.
  unfold flags_of at 1, result, after. intros Hf Hok.
  destruct (objs h !! this) as [o|] eqn:Ho; [|discriminate].
  destruct (chain calls this h) as [[l0|e] h'] eqn:Hrun; [|discriminate].
  cbn [fst] in Hok. injection Hok as ->. cbn [snd].
  apply (chain_flags calls h h' this l o bs Ho Hf Hrun).
Qed.

Lemma chain_flags_record_categories_witness :
  exists bs',
    flags_of (after (chain [(Id, "x"); (PseudoClass, "hover")]
                       cssSelectorBuilder) init_heap) 2 = Some bs' /\
    forall i, flag bs' i = true
              <-> flag no_flags i = true \/
                  exists c value,
                    (c, value) ∈ [(Id, "x"); (PseudoClass, "hover")] /\
                    rank c = i.
Proof.
  apply (chain_flags_record_categories init_heap cssSelectorBuilder 2
           no_flags [(Id, "x"); (PseudoClass, "hover")]); reflexivity.
Defined.

(** ** Running programs *)

(** X7: in a running program a method called on an object the client holds
    fails in two ways only: a part-appending call returns a reference or
    throws the duplicate-part error or the ordering error, [stringify]
    returns a string, and [combine] returns its receiver. *)
Theorem running_program_outcomes (h : heap) (this : loc) :
  reachable h -> live h this ->
  (forall c value,
     (exists l, result (call c value this) h = Ok l) \/
     result (call c value this) h = Throw DuplicatePartError \/
     result (call c value this) h = Throw OrderingError) /\
  (exists t, result (stringify this) h = Ok t) /\
  (forall s1 s2 combinator, live h s1 -> live h s2 ->
     result (combine s1 combinator s2 this) h = Ok this).
Proof.
  intros Hr Hl.
  destruct (reachable_flags_of h this Hr Hl) as (bs & Hf & _).
  split; [|split].
  - intros c v. rewrite (call_outcome_live c v this h bs Hf).
    destruct (single c && flag bs (rank c)); [right; now left|].
    destruct (higher_set bs (rank c)); [right; now right|].
    left. eauto.
  - destruct Hl as [o Ho]. exists (res o). apply stringify_result.
    unfold text_of. now rewrite Ho.
  - intros s1 s2 comb [o1 Ho1] [o2 Ho2].
    now destruct (combine_after h s1 s2 this o1 o2 comb Ho1 Ho2 Hl).
Qed.

Lemma reachable_heap_xyz : reachable heap_xyz.
Proof.
  change heap_xyz
    with (step (Call Element "z" cssSelectorBuilder)
            (step (Call Element "y" cssSelectorBuilder)
               (step (Call Element "x" cssSelectorBuilder) init_heap))).
  repeat (apply reachable_step; [|vm_compute; eauto]).
  apply reachable_init.
Defined.

Lemma running_program_outcomes_witness :
  (forall c value,
     (exists l, result (call c value 2) heap_xyz = Ok l) \/
     result (call c value 2) heap_xyz = Throw DuplicatePartError \/
     result (call c value 2) heap_xyz = Throw OrderingError) /\
  (exists t, result (stringify 2) heap_xyz = Ok t) /\
  (forall s1 s2 combinator, live heap_xyz s1 -> live heap_xyz s2 ->
     result (combine s1 combinator s2 2) heap_xyz = Ok 2).
Proof.
  apply (running_program_outcomes heap_xyz 2);
    [exact reachable_heap_xyz|vm_compute; eauto].
Defined.

(** Each object refers to the array allocated with it. *)
Lemma reachable_own_array (h : heap) :
  reachable h ->
  length (objs h) = length (arrs h) /\
  forall l o, objs h !! l = Some o -> bits o = l.
Proof.
  induction 1 as [|h a Hr [IHlen IH] Hlive].
  - split; [reflexivity|]. intros [|l] o Hl; [|discriminate].
    now injection Hl as <-.
  - assert (Hwt : forall l0 s,
               length (objs (with_text l0 s h)) = length (arrs (with_text l0 s h)) /\
               forall l o, objs (with_text l0 s h) !! l = Some o -> bits o = l).
    { intros l0 s. rewrite with_text_length, with_text_arrs.
      split; [exact IHlen|]. intros l o. rewrite with_text_lookup.
      destruct (decide (l = l0)) as [->|]; [|apply IH].
      destruct (objs h !! l0) as [o0|] eqn:Ho0; [|discriminate].
      cbn. intros [= <-]. cbn [bits]. now apply IH. }
    destruct a as [c v this|this|s1 comb s2 this]; cbn [step on_live] in *.
    + unfold after. rewrite call_run. unfold call_outcome.
      destruct (objs h !! this) as [o|] eqn:Ho; [|now split].
      destruct (arrs h !! bits o) as [bs|] eqn:Hbs; [|now split].
      destruct (single c && flag bs (rank c)); [now split|].
      destruct (higher_set bs (rank c)); [now split|]. cbn [snd].
      unfold extend. cbn [objs arrs]. split.
      * rewrite !length_app. simpl. lia.
      * intros l o' Hl. apply lookup_app_Some in Hl as [Hl|[Hge Hl]].
        -- now apply IH.
        -- apply list_lookup_singleton_Some in Hl as [Hz <-]. cbn [bits].
           lia.
    + rewrite stringify_after. apply Hwt.
    + destruct Hlive as ([o1 Ho1] & [o2 Ho2] & Ht).
      destruct (combine_after h s1 s2 this o1 o2 comb Ho1 Ho2 Ht) as [_ ->].
      rewrite !with_text_length, !with_text_arrs. split; [exact IHlen|].
      intros l o. rewrite !with_text_lookup.
      repeat match goal with
             | |- context [decide (?a = ?b)] =>
                 destruct (decide (a = b)) as [->|]
             end;
        rewrite ?Ho1, ?Ho2; cbn;
        try (destruct (objs h !! this) as [o0|] eqn:Ho0; cbn);
        try discriminate; try (intros [= <-]; cbn [bits]);
        try (now apply IH).
Qed.

(** X8: in a running program no two objects share a flags array: the
    [slice] in [createNewObj] gives every object an array of its own, so
    setting a flag for one object is never seen through another. *)
Theorem reachable_arrays_not_shared (h : heap) (l1 l2 : loc)
    (o1 o2 : object) :
  reachable h ->
  objs h !! l1 = Some o1 -> objs h !! l2 = Some o2 ->
  l1 <> l2 -> bits o1 <> bits o2.
Proof.
  intros Hr H1 H2 Hne Heq. apply Hne.
  destruct (reachable_own_array h Hr) as [_ Hown].
  rewrite <- (Hown l1 o1 H1), <- (Hown l2 o2 H2). exact Heq.
Qed.

Lemma reachable_arrays_not_shared_witness :
  bits (Object "x" 1) <> bits (Object "y" 2).
Proof.
  apply (reachable_arrays_not_shared heap_xyz 1 2 (Object "x" 1)
           (Object "y" 2));
    [exact reachable_heap_xyz|reflexivity|reflexivity|lia].
Defined.

(** ** Composing [combine] *)

(** X9: the nesting of the source's documentation,
    [this.combine(s1, c1, this.combine(s2, c2, s3))].  The inner call
    returns the receiver, which is then the right operand of the outer call;
    when [s1] is an object other than the receiver and than [s2] and [s3],
    and [s2] and [s3] are two objects, the result renders to the three texts
    joined by the two combinators. *)
Theorem nested_combine_renders (h : heap) (s1 s2 s3 this : loc)
    (t1 t2 t3 c1 c2 : string) :
  text_of h s1 = Some t1 -> text_of h s2 = Some t2 ->
  text_of h s3 = Some t3 -> live h this ->
  s1 <> this -> s1 <> s2 -> s1 <> s3 -> s2 <> s3 ->
  result (do inner <- combine s2 c2 s3 this ;
          do outer <- combine s1 c1 inner this ;
          stringify outer) h
  = Ok (t1 +:+ " " +:+ c1 +:+ " " +:+ t2 +:+ " " +:+ c2 +:+ " " +:+ t3).
Proof.
  intros H1 H2 H3 Ht Hn1 Hn12 Hn13 Hn23.
  destruct (text_of_live _ _ _ H2) as (o2 & Ho2 & <-).
  destruct (text_of_live _ _ _ H3) as (o3 & Ho3 & <-).
  unfold result.
  bind_step (combine_run h s2 s3 this o2 o3 c2 Ho2 Ho3 Ht).
  destruct (decide (s3 = s2)) as [|_]; [congruence|].
  set (j := res o2 +:+ " " +:+ c2 +:+ " " +:+ res o3).
  set (h1 := with_text this j (with_text s3 "" (with_text s2 "" h))).
  assert (Hl1 : live h1 this) by now do 3 apply live_with_text.
  assert (Ht1 : text_of h1 s1 = Some t1).
  { unfold h1. now rewrite !text_of_with_text_ne. }
  assert (Htt : text_of h1 this = Some j).
  { unfold h1. apply text_of_with_text_eq. now do 2 apply live_with_text. }
  destruct (text_of_live _ _ _ Ht1) as (o1 & Ho1 & <-).
  destruct (text_of_live _ _ _ Htt) as (ot & Hot & Hj).
  bind_step (combine_run h1 s1 this this o1 ot c1 Ho1 Hot Hl1).
  destruct (decide (this = s1)) as [|_]; [congruence|].
  rewrite Hj.
  set (h2 := with_text this _ _).
  assert (Ht2 : text_of h2 this
                = Some (res o1 +:+ " " +:+ c1 +:+ " " +:+ j)).
  { unfold h2. apply text_of_with_text_eq. now do 2 apply live_with_text. }
  apply (stringify_result h2 this _ Ht2).
Qed.

Lemma nested_combine_renders_witness :
  result (do inner <- combine 2 "~" 3 cssSelectorBuilder ;
          do outer <- combine 1 "+" inner cssSelectorBuilder ;
          stringify outer) heap_xyz
  = Ok ("x" +:+ " " +:+ "+" +:+ " " +:+ "y" +:+ " " +:+ "~" +:+ " " +:+ "z").
Proof.
  apply (nested_combine_renders heap_xyz 1 2 3 cssSelectorBuilder
           "x" "y" "z" "+" "~");
    [reflexivity|reflexivity|reflexivity|vm_compute; eauto
    |unfold cssSelectorBuilder; lia..].
Defined.

(** X10: the other nesting, [this.combine(this.combine(s1, c1, s2), c2, s3)]
    with [s3] built beforehand.  The inner call returns the receiver, which
    is then the left operand of the outer call; when [s3] is an object other
    than the receiver and than [s1] and [s2], and [s1] and [s2] are two
    objects, the result renders to the three texts joined by the two
    combinators. *)
Theorem left_nested_combine_renders (h : heap) (s1 s2 s3 this : loc)
    (t1 t2 t3 c1 c2 : string) :
  text_of h s1 = Some t1 -> text_of h s2 = Some t2 ->
  text_of h s3 = Some t3 -> live h this ->
  s3 <> this -> s3 <> s1 -> s3 <> s2 -> s1 <> s2 ->
  result (do inner <- combine s1 c1 s2 this ;
          do outer <- combine inner c2 s3 this ;
          stringify outer) h
  = Ok ((t1 +:+ " " +:+ c1 +:+ " " +:+ t2) +:+ " " +:+ c2 +:+ " " +:+ t3).
Proof.
  intros H1 H2 H3 Ht Hn3 Hn31 Hn32 Hn12.
  destruct (text_of_live _ _ _ H1) as (o1 & Ho1 & <-).
  destruct (text_of_live _ _ _ H2) as (o2 & Ho2 & <-).
  unfold result.
  bind_step (combine_run h s1 s2 this o1 o2 c1 Ho1 Ho2 Ht).
  destruct (decide (s2 = s1)) as [|_]; [congruence|].
  set (j := res o1 +:+ " " +:+ c1 +:+ " " +:+ res o2).
  set (h1 := with_text this j (with_text s2 "" (with_text s1 "" h))).
  assert (Hl1 : live h1 this) by now do 3 apply live_with_text.
  assert (Ht3 : text_of h1 s3 = Some t3).
  { unfold h1. now rewrite !text_of_with_text_ne. }
  assert (Htt : text_of h1 this = Some j).
  { unfold h1. apply text_of_with_text_eq. now do 2 apply live_with_text. }
  destruct (text_of_live _ _ _ Ht3) as (o3 & Ho3 & <-).
  destruct (text_of_live _ _ _ Htt) as (ot & Hot & Hj).
  bind_step (combine_run h1 this s3 this ot o3 c2 Hot Ho3 Hl1).
  destruct (decide (s3 = this)) as [|_]; [congruence|].
  rewrite Hj.
  set (h2 := with_text this _ _).
  assert (Ht2 : text_of h2 this
                = Some (j +:+ " " +:+ c2 +:+ " " +:+ res o3)).
  { unfold h2. apply text_of_with_text_eq. now do 2 apply live_with_text. }
  apply (stringify_result h2 this _ Ht2).
Qed.

Lemma left_nested_combine_renders_witness :
  result (do inner <- combine 1 "+" 2 cssSelectorBuilder ;
          do outer <- combine inner "~" 3 cssSelectorBuilder ;
          stringify outer) heap_xyz
  = Ok (("x" +:+ " " +:+ "+" +:+ " " +:+ "y") +:+ " " +:+ "~" +:+ " " +:+ "z").
Proof.
  apply (left_nested_combine_renders heap_xyz 1 2 3 cssSelectorBuilder
           "x" "y" "z" "+" "~");
    [reflexivity|reflexivity|reflexivity|vm_compute; eauto
    |unfold cssSelectorBuilder; lia..].
Defined.

(** X11: in a running program, rendering [cssSelectorBuilder] itself, as
    the client does with the result of a [combine], leaves it with the empty
    text and no flag set; so a valid chain started from it afterwards runs
    to its end and the text of its last object is the chain's own fragments,
    with nothing of the earlier selector. *)
Theorem builder_fresh_after_stringify (h : heap)
    (calls : list (category * string)) :
  reachable h -> valid_chain calls = true ->
  text_of (after (stringify cssSelectorBuilder) h) cssSelectorBuilder
  = Some "" /\
  flags_of (after (stringify cssSelectorBuilder) h) cssSelectorBuilder
  = Some no_flags /\
  exists l,
    result (chain calls cssSelectorBuilder)
      (after (stringify cssSelectorBuilder) h) = Ok l /\
    text_of (after (chain calls cssSelectorBuilder)
               (after (stringify cssSelectorBuilder) h)) l
    = Some (fragments calls).
Proof.
  intros Hr Hv.
  pose proof (builder_flags_unset h Hr) as Hf.
  assert (Hl : live h cssSelectorBuilder).
  { unfold flags_of in Hf. unfold live.
    destruct (objs h !! cssSelectorBuilder); [eauto|discriminate]. }
  rewrite stringify_after.
  assert (Ht' : text_of (with_text cssSelectorBuilder "" h) cssSelectorBuilder
                = Some "") by now apply text_of_with_text_eq.
  assert (Hf' : flags_of (with_text cssSelectorBuilder "" h) cssSelectorBuilder
                = Some no_flags) by now rewrite flags_of_with_text.
  split; [exact Ht'|]. split; [exact Hf'|].
  destruct (text_of_live _ _ _ Ht') as (o & Ho & Hres).
  unfold flags_of in Hf'. rewrite Ho in Hf'.
  destruct (chain_run calls _ cssSelectorBuilder o no_flags Ho Hf' Hv
              (compatible_no_flags calls)) as (l & h' & Hrun & Htext).
  exists l. unfold result, after. rewrite Hrun. cbn [fst snd].
  split; [reflexivity|]. now rewrite Htext, Hres.
Qed.

Lemma builder_fresh_after_stringify_witness :
  text_of (after (stringify cssSelectorBuilder)
             (after (combine 1 "+" 2 cssSelectorBuilder) heap_xyz))
    cssSelectorBuilder = Some "" /\
  flags_of (after (stringify cssSelectorBuilder)
              (after (combine 1 "+" 2 cssSelectorBuilder) heap_xyz))
    cssSelectorBuilder = Some no_flags /\
  exists l,
    result (chain [(Element, "a"); (Class, "b")] cssSelectorBuilder)
      (after (stringify cssSelectorBuilder)
         (after (combine 1 "+" 2 cssSelectorBuilder) heap_xyz)) = Ok l /\
    text_of (after (chain [(Element, "a"); (Class, "b")] cssSelectorBuilder)
               (after (stringify cssSelectorBuilder)
                  (after (combine 1 "+" 2 cssSelectorBuilder) heap_xyz))) l
    = Some (fragments [(Element, "a"); (Class, "b")]).
Proof.
  apply (builder_fresh_after_stringify
           (after (combine 1 "+" 2 cssSelectorBuilder) heap_xyz)
           [(Element, "a"); (Class, "b")]); [|reflexivity].
  apply (reachable_step heap_xyz (Combine 1 "+" 2 cssSelectorBuilder)
           reachable_heap_xyz).
  cbn [on_live]. repeat split; vm_compute; eauto.
Defined.

(** X12: in a running program the flags array has six elements, so the loop
    of [checkOrder(5)] has no index to visit: [pseudoElement] never throws
    the ordering error, and fails only when the object already has a
    pseudo-element. *)
Theorem pseudoElement_fails_only_as_duplicate (h : heap) (this : loc)
    (value : string) (bs : list bool) :
  reachable h -> flags_of h this = Some bs ->
  result (pseudoElement value this) h <> Throw OrderingError /\
  ((exists l, result (pseudoElement value this) h = Ok l)
   <-> flag bs 5 = false).
Proof.
  intros Hr Hf.
  assert (Hl : live h this).
  { unfold flags_of in Hf. unfold live.
    destruct (objs h !! this); [eauto|discriminate]. }
  destruct (reachable_flags_of h this Hr Hl) as (bs' & Hf' & Hlen).
  rewrite Hf in Hf'. injection Hf' as <-.
  assert (Hhi : higher_set bs (rank PseudoElement) = false).
  { unfold higher_set. rewrite drop_ge by (simpl; lia). reflexivity. }
  pose proof (call_outcome_live PseudoElement value this h bs Hf) as Hout.
  cbn [call single andb] in Hout. rewrite Hhi in Hout.
  cbn [rank] in Hout. rewrite Hout.
  destruct (flag bs 5).
  - split; [discriminate|]. split; [intros [l Hl']; discriminate|discriminate].
  - split; [discriminate|]. split; [reflexivity|eauto].
Qed.

Lemma pseudoElement_fails_only_as_duplicate_witness :
  result (pseudoElement "after" 2) heap_xyz <> Throw OrderingError /\
  ((exists l, result (pseudoElement "after" 2) heap_xyz = Ok l)
   <-> flag [true; false; false; false; false; false] 5 = false).
Proof.
  apply (pseudoElement_fails_only_as_duplicate heap_xyz 2 "after"
           [true; false; false; false; false; false]);
    [exact reachable_heap_xyz|reflexivity].
Defined.

(** X13: the same nesting with the right operand built in the argument
    list, [b.combine(b.combine(s1, c1, s2), c2, b.m(value))] on
    [b = cssSelectorBuilder].  JavaScript evaluates the arguments from left
    to right, so [b.m(value)] runs when [b] already holds the text joined by
    the inner call: the right operand starts with that text, and the result
    renders to the joined text, the second combinator, and the joined text
    again followed by the fragment. *)
Theorem combine_then_derive_repeats_text (h : heap) (s1 s2 : loc)
    (t1 t2 c1 c2 : string) (c : category) (value : string) :
  reachable h ->
  text_of h s1 = Some t1 -> text_of h s2 = Some t2 -> s1 <> s2 ->
  result (do inner <- combine s1 c1 s2 cssSelectorBuilder ;
          do right <- call c value cssSelectorBuilder ;
          do outer <- combine inner c2 right cssSelectorBuilder ;
          stringify outer) h
  = Ok ((t1 +:+ " " +:+ c1 +:+ " " +:+ t2) +:+ " " +:+ c2 +:+ " " +:+
        ((t1 +:+ " " +:+ c1 +:+ " " +:+ t2) +:+ fragment c value)).
Proof.
  intros Hr H1 H2 Hn12.
  destruct (text_of_live _ _ _ H1) as (o1 & Ho1 & <-).
  destruct (text_of_live _ _ _ H2) as (o2 & Ho2 & <-).
  assert (Hb : live h cssSelectorBuilder).
  { pose proof (builder_flags_unset h Hr) as Hf. unfold flags_of in Hf.
    unfold live. destruct (objs h !! cssSelectorBuilder); [eauto|discriminate]. }
  assert (Hr1 : reachable (step (Combine s1 c1 s2 cssSelectorBuilder) h)).
  { apply reachable_step; [exact Hr|]. cbn [on_live].
    repeat split; [eexists; exact Ho1|eexists; exact Ho2|exact Hb]. }
  cbn [step] in Hr1. unfold after in Hr1. unfold result.
  rewrite (combine_run h s1 s2 cssSelectorBuilder o1 o2 c1 Ho1 Ho2 Hb) in Hr1.
  cbn [snd] in Hr1.
  bind_step (combine_run h s1 s2 cssSelectorBuilder o1 o2 c1 Ho1 Ho2 Hb).
  destruct (decide (s2 = s1)) as [|_]; [congruence|].
  set (j := res o1 +:+ " " +:+ c1 +:+ " " +:+ res o2) in *.
  set (h1 := with_text cssSelectorBuilder j _) in *.
  pose proof (builder_flags_unset h1 Hr1) as Hf1.
  assert (Htb : text_of h1 cssSelectorBuilder = Some j).
  { unfold h1. apply text_of_with_text_eq. now do 2 apply live_with_text. }
  destruct (text_of_live _ _ _ Htb) as (ob & Hob & Hj).
  unfold flags_of in Hf1. rewrite Hob in Hf1.
  destruct (no_flags_pass c) as [Hown Hhi].
  assert (Hcall : call c value cssSelectorBuilder h1
                  = (Ok (length (objs h1)), extend h1 ob c value no_flags)).
  { rewrite call_run. unfold call_outcome. now rewrite Hob, Hf1, Hown, Hhi. }
  bind_step Hcall.
  set (h2 := extend h1 ob c value no_flags).
  assert (Hob2 : objs h2 !! cssSelectorBuilder = Some ob)
    by now apply extend_old_object.
  assert (Hl2 : live h2 cssSelectorBuilder) by (eexists; exact Hob2).
  assert (Hlen : length (objs h1) <> cssSelectorBuilder).
  { apply lookup_lt_Some in Hob. unfold cssSelectorBuilder in *. lia. }
  bind_step (combine_run h2 cssSelectorBuilder (length (objs h1))
               cssSelectorBuilder ob _ c2 Hob2
               (extend_new_object h1 ob c value no_flags) Hl2).
  destruct (decide (length (objs h1) = cssSelectorBuilder)) as [|_];
    [congruence|].
  cbn [res]. rewrite Hj.
  set (h3 := with_text cssSelectorBuilder _ _).
  assert (Ht3 : text_of h3 cssSelectorBuilder
                = Some (j +:+ " " +:+ c2 +:+ " " +:+ (j +:+ fragment c value))).
  { unfold h3. apply text_of_with_text_eq. now do 2 apply live_with_text. }
  apply (stringify_result h3 cssSelectorBuilder _ Ht3).
Qed.

Lemma combine_then_derive_repeats_text_witness :
  result (do inner <- combine 1 "+" 2 cssSelectorBuilder ;
          do right <- call Element "w" cssSelectorBuilder ;
          do outer <- combine inner ">" right cssSelectorBuilder ;
          stringify outer) heap_xyz
  = Ok (("x" +:+ " " +:+ "+" +:+ " " +:+ "y") +:+ " " +:+ ">" +:+ " " +:+
        (("x" +:+ " " +:+ "+" +:+ " " +:+ "y") +:+ fragment Element "w")).
Proof.
  apply (combine_then_derive_repeats_text heap_xyz 1 2 "x" "y" "+" ">"
           Element "w");
    [exact reachable_heap_xyz|reflexivity|reflexivity|lia].
Defined.
